(** * A private ledger of linked blocks: Block and Blockchain

    Model of the two classes of the project as [src/block.js] gives them:
    [Block] (constructor, [validate], the getter [getBData]) and
    [Blockchain] (constructor, [initializeChain], [getChainHeight],
    [_addBlock], [_getCurrentTimeStamp],
    [requestMessageOwnershipVerification], [submitStar], [getBlockByHash],
    [getBlockByHeight], [getStarsByWalletAddress], [validateChain]).

    Conventions of the model.

    - A JavaScript string is the sequence of its UTF-8 bytes, held in a Rocq
      [string].  crypto-js hashes exactly these bytes and [Buffer.from]
      encodes exactly these bytes.
    - A JavaScript number is [NaN] or an integer.  The numbers of the program
      are heights, clock readings and the integer read by [parseInt]; none
      of them is fractional.  Integers are exact here while JavaScript
      rounds beyond 2^53; the one comparison the program makes on a number
      it has read, [deltaTime <= 300], has the same outcome either way for
      a clock below 2^52, since a timestamp that large is far from the
      clock on one side or the other.  Integers are written in decimal
      with all their digits, as JavaScript writes the integers it holds
      exactly (up to 2^53 - 1 in absolute value); what is stated about
      the JSON text of a value that a caller supplies is stated for the
      values whose numbers are of this kind ([exact_numbers]).
    - A promise is represented by the state in which it is left once the
      job queue has drained: fulfilled, rejected, or still pending.
    - Blocks are records.  The block handed to [_addBlock] is an object of
      its own: it is not one of the objects already stored in the chain.
      Both calls of [_addBlock] in the source pass a block they have just
      built with [new Block].
    - Calls on one [Blockchain] object are serialised: a call starts after
      the promise of the previous one has settled.  The one suspension point
      of [_addBlock] ([await this.validateChain()]) is kept visible by
      splitting the function in the part before and the part after it.
    - The clock ([new Date().getTime()], milliseconds) is an input of every
      function that reads it.  [bitcoinMessage.verify], [hex2ascii] and
      [JSON.parse] belong to libraries outside the repository and are taken
      as parameters.  SHA-256 is written out (FIPS 180-4). *)

From Stdlib Require Import ZArith List String Ascii Bool Lia.
Import ListNotations.
Local Open Scope string_scope.
Local Open Scope list_scope.
Local Open Scope Z_scope.
Set Warnings "-register-all".

(** String concatenation, the [+] of JavaScript on strings. *)
Local Infix "+++" := append (right associativity, at level 60).

(** ** JavaScript values *)

Inductive Number : Type :=
| NaN
| Num (z : Z).

Inductive JSValue : Type :=
| JUndefined
| JNull
| JBool (b : bool)
| JNum (n : Number)
| JStr (s : string)
| JArr (items : list JSValue)
| JObj (props : list (string * JSValue)).

Inductive Exception : Type :=
| TypeError
| SyntaxError
| Error (message : string).

(** Result of evaluating an expression that may throw. *)
Inductive Completion (A : Type) : Type :=
| Normal (a : A)
| Throw (e : Exception).
Arguments Normal {A} a.
Arguments Throw {A} e.

(** The records pushed on [errorLog] by [validateChain]: [{ error: ... }]. *)
Record ErrorRecord : Type := { error : string }.

(** What a promise of the program is rejected with: the error log
    ([reject(errors)]), a caught exception or an [Error] object
    ([reject(err)]), or a plain string. *)
Inductive Reason : Type :=
| ErrorLog (errors : list ErrorRecord)
| Thrown (e : Exception)
| Message (s : string).

Inductive Promise (A : Type) : Type :=
| Fulfilled (a : A)
| Rejected (r : Reason)
| Pending.
Arguments Fulfilled {A} a.
Arguments Rejected {A} r.
Arguments Pending {A}.

(** [resolve] and [reject] settle a promise once; later calls are ignored. *)
Definition settle {A : Type} (p outcome : Promise A) : Promise A :=
  match p with
  | Pending => outcome
  | _ => p
  end.

(** Reading a property of a promise object.  A promise has no data property
    of its own, and the names found along its prototype chain are methods
    ([then], [catch], [finally], [constructor], ...), none of which the
    program reads this way: every other name reads as [undefined]. *)
Definition Promise_get {A : Type} (p : Promise A) (name : string) : JSValue :=
  JUndefined.

Definition Number_eqb (a b : Number) : bool :=
  match a, b with
  | Num x, Num y => x =? y
  | _, _ => false
  end.

(** [a === b] on primitive values.  Arrays and objects are compared by
    reference; two values of the model never denote the same object. *)
Definition strict_equal (a b : JSValue) : bool :=
  match a, b with
  | JUndefined, JUndefined => true
  | JNull, JNull => true
  | JBool x, JBool y => Bool.eqb x y
  | JNum x, JNum y => Number_eqb x y
  | JStr x, JStr y => String.eqb x y
  | _, _ => false
  end.

(** ToBoolean. *)
Definition truthy (v : JSValue) : bool :=
  match v with
  | JUndefined | JNull => false
  | JBool b => b
  | JNum NaN => false
  | JNum (Num z) => negb (z =? 0)
  | JStr s => negb (String.eqb s EmptyString)
  | JArr _ | JObj _ => true
  end.

(** [a === b] where both sides are [null] or a string (the hash fields). *)
Definition hash_equal (a b : option string) : bool :=
  match a, b with
  | None, None => true
  | Some x, Some y => String.eqb x y
  | _, _ => false
  end.

(** ** Numbers and strings *)

Definition Number_sub (a b : Number) : Number :=
  match a, b with
  | Num x, Num y => Num (x - y)
  | _, _ => NaN
  end.

(** [a <= b]; a comparison with [NaN] is false. *)
Definition Number_leb (a b : Number) : bool :=
  match a, b with
  | Num x, Num y => x <=? y
  | _, _ => false
  end.

Definition code (c : ascii) : Z := Z.of_nat (nat_of_ascii c).

Definition chr (n : Z) : ascii := ascii_of_nat (Z.to_nat n).

Definition bytes (s : string) : list Z := map code (list_ascii_of_string s).

Definition str (c : ascii) : string := String c EmptyString.

(** The decimal digits of a natural number, the most significant first.
    The fuel is the position of the highest bit, which bounds the number of
    digits after the first. *)
Fixpoint decimal (fuel : nat) (n : Z) : list Z :=
  match fuel with
  | O => [n]
  | S fuel' => if n <? 10 then [n] else decimal fuel' (n / 10) ++ [n mod 10]
  end.

Definition dec (n : Z) : list Z := decimal (Z.to_nat (Z.log2 n)) n.

Definition digits_text (ds : list Z) : string :=
  string_of_list_ascii (map (fun d => chr (48 + d)) ds).

(** [Number.prototype.toString] on an integer. *)
Definition Z_toString (z : Z) : string :=
  if z <? 0 then String (chr 45) (digits_text (dec (- z)))
  else digits_text (dec z).

(** The value of a sequence of digits read from the left, and the range of
    a digit. *)
Definition horner (acc : Z) (ds : list Z) : Z :=
  fold_left (fun a d => 10 * a + d) ds acc.

Definition is_digit (d : Z) : Prop := 0 <= d <= 9.

Definition hex_digit (d : Z) : ascii :=
  chr (if d <? 10 then 48 + d else 87 + d).

Definition hex_byte (b : Z) : string :=
  String (hex_digit (Z.shiftr b 4)) (str (hex_digit (Z.land b 15))).

Definition hex (bs : list Z) : string :=
  fold_right (fun b acc => hex_byte b +++ acc) EmptyString bs.

(** [s.slice(0, -n)]. *)
Definition slice_0_minus (n : nat) (s : string) : string :=
  substring 0 (String.length s - n) s.

(** [s.split(sep)] for a separator of one character. *)
Fixpoint split (sep : ascii) (s : string) : list string :=
  match s with
  | EmptyString => [EmptyString]
  | String c rest =>
      if Ascii.eqb c sep then EmptyString :: split sep rest
      else match split sep rest with
           | field :: fields => String c field :: fields
           | [] => [str c]
           end
  end.

(** *** parseInt *)

(** White space and line terminators skipped by [parseInt], as UTF-8. *)
Definition white_space : list (list Z) :=
  [ [9]; [10]; [11]; [12]; [13]; [32]; [194; 160]; [225; 154; 128];
    [226; 128; 128]; [226; 128; 129]; [226; 128; 130]; [226; 128; 131];
    [226; 128; 132]; [226; 128; 133]; [226; 128; 134]; [226; 128; 135];
    [226; 128; 136]; [226; 128; 137]; [226; 128; 138]; [226; 128; 168];
    [226; 128; 169]; [226; 128; 175]; [226; 129; 159]; [227; 128; 128];
    [239; 187; 191] ].

Fixpoint strip_prefix (p bs : list Z) : option (list Z) :=
  match p, bs with
  | [], _ => Some bs
  | x :: p', b :: bs' => if x =? b then strip_prefix p' bs' else None
  | _ :: _, [] => None
  end.

Fixpoint strip_any (ps : list (list Z)) (bs : list Z) : option (list Z) :=
  match ps with
  | [] => None
  | p :: ps' =>
      match strip_prefix p bs with
      | Some rest => Some rest
      | None => strip_any ps' bs
      end
  end.

Fixpoint skip_white_space (fuel : nat) (bs : list Z) : list Z :=
  match fuel with
  | O => bs
  | S fuel' =>
      match strip_any white_space bs with
      | Some rest => skip_white_space fuel' rest
      | None => bs
      end
  end.

Definition digit_value (radix b : Z) : option Z :=
  let v := if (48 <=? b) && (b <=? 57) then b - 48
           else if (97 <=? b) && (b <=? 102) then b - 87
           else if (65 <=? b) && (b <=? 70) then b - 55
           else 99 in
  if v <? radix then Some v else None.

(** Value of the longest prefix of digits; [None] when there is none. *)
Fixpoint digits (radix : Z) (acc : option Z) (bs : list Z) : option Z :=
  match bs with
  | [] => acc
  | b :: bs' =>
      match digit_value radix b with
      | Some v =>
          digits radix (Some (radix * match acc with Some a => a | None => 0 end + v)) bs'
      | None => acc
      end
  end.

(** [parseInt(s)] with no radix argument. *)
Definition parseInt (s : string) : Number :=
  let bs := bytes s in
  let bs := skip_white_space (List.length bs) bs in
  let '(sign, bs) :=
    match bs with
    | 45 :: rest => (-1, rest)
    | 43 :: rest => (1, rest)
    | _ => (1, bs)
    end in
  let '(radix, bs) :=
    match bs with
    | 48 :: 120 :: rest => (16, rest)
    | 48 :: 88 :: rest => (16, rest)
    | _ => (10, bs)
    end in
  match digits radix None bs with
  | Some v => Num (sign * v)
  | None => NaN
  end.

(** ** SHA-256 (FIPS 180-4) on 32-bit words held in [Z] *)

Module Sha256.

Definition wrap32 (x : Z) : Z := Z.land x 4294967295.
Definition add32 (x y : Z) : Z := wrap32 (x + y).
Definition rotr (n x : Z) : Z :=
  Z.lor (Z.shiftr x n) (wrap32 (Z.shiftl x (32 - n))).
Definition not32 (x : Z) : Z := Z.lxor x 4294967295.

Definition Ch (x y z : Z) : Z := Z.lxor (Z.land x y) (Z.land (not32 x) z).
Definition Maj (x y z : Z) : Z :=
  Z.lxor (Z.lxor (Z.land x y) (Z.land x z)) (Z.land y z).
Definition Sig0 (x : Z) : Z := Z.lxor (Z.lxor (rotr 2 x) (rotr 13 x)) (rotr 22 x).
Definition Sig1 (x : Z) : Z := Z.lxor (Z.lxor (rotr 6 x) (rotr 11 x)) (rotr 25 x).
Definition sig0 (x : Z) : Z := Z.lxor (Z.lxor (rotr 7 x) (rotr 18 x)) (Z.shiftr x 3).
Definition sig1 (x : Z) : Z := Z.lxor (Z.lxor (rotr 17 x) (rotr 19 x)) (Z.shiftr x 10).

(** The round constants and the initial hash value, in decimal. *)
Definition K : list Z :=
  [
    1116352408; 1899447441; 3049323471; 3921009573; 961987163; 1508970993;
    2453635748; 2870763221; 3624381080; 310598401; 607225278; 1426881987;
    1925078388; 2162078206; 2614888103; 3248222580; 3835390401; 4022224774;
    264347078; 604807628; 770255983; 1249150122; 1555081692; 1996064986;
    2554220882; 2821834349; 2952996808; 3210313671; 3336571891; 3584528711;
    113926993; 338241895; 666307205; 773529912; 1294757372; 1396182291;
    1695183700; 1986661051; 2177026350; 2456956037; 2730485921; 2820302411;
    3259730800; 3345764771; 3516065817; 3600352804; 4094571909; 275423344;
    430227734; 506948616; 659060556; 883997877; 958139571; 1322822218;
    1537002063; 1747873779; 1955562222; 2024104815; 2227730452; 2361852424;
    2428436474; 2756734187; 3204031479; 3329325298 ].

Definition H0 : list Z :=
  [
    1779033703; 3144134277; 1013904242; 2773480762; 1359893119; 2600822924;
    528734635; 1541459225 ].

(** The [n] low bytes of [x], most significant first. *)
Definition be_bytes (n : nat) (x : Z) : list Z :=
  map (fun i => Z.land (Z.shiftr x (8 * Z.of_nat i)) 255) (rev (seq 0 n)).

(** Padding: the byte 0x80, zero bytes up to 56 modulo 64, then the length
    of the message in bits on eight bytes. *)
Definition pad (msg : list Z) : list Z :=
  let len := Z.of_nat (List.length msg) in
  msg ++ [128] ++ repeat 0 (Z.to_nat ((55 - len) mod 64)) ++ be_bytes 8 (8 * len).

Fixpoint words (bs : list Z) : list Z :=
  match bs with
  | a :: b :: c :: d :: rest =>
      Z.lor (Z.shiftl a 24) (Z.lor (Z.shiftl b 16) (Z.lor (Z.shiftl c 8) d))
      :: words rest
  | _ => []
  end.

(** Message schedule; [win] holds the last sixteen words, newest first. *)
Fixpoint schedule (n : nat) (win : list Z) : list Z :=
  match n with
  | O => []
  | S n' =>
      let w := add32 (add32 (sig1 (nth 1 win 0)) (nth 6 win 0))
                     (add32 (sig0 (nth 14 win 0)) (nth 15 win 0)) in
      w :: schedule n' (w :: firstn 15 win)
  end.

Definition round (st : list Z) (kw : Z * Z) : list Z :=
  match st with
  | [a; b; c; d; e; f; g; h] =>
      let t1 := add32 (add32 (add32 h (Sig1 e)) (add32 (Ch e f g) (fst kw))) (snd kw) in
      let t2 := add32 (Sig0 a) (Maj a b c) in
      [add32 t1 t2; a; b; c; add32 d t1; e; f; g]
  | _ => st
  end.

Definition compress (h block : list Z) : list Z :=
  let w16 := words block in
  let w := w16 ++ schedule 48 (rev w16) in
  map (fun p => add32 (fst p) (snd p)) (combine h (fold_left round (combine K w) h)).

Fixpoint blocks (fuel : nat) (h bs : list Z) : list Z :=
  match fuel with
  | O => h
  | S fuel' =>
      match bs with
      | [] => h
      | _ => blocks fuel' (compress h (firstn 64 bs)) (skipn 64 bs)
      end
  end.

Definition digest (msg : list Z) : list Z :=
  let p := pad msg in blocks (List.length p) H0 p.

End Sha256.

(** [SHA256(s).toString()] of crypto-js: the digest of the UTF-8 bytes of
    [s], in lower-case hexadecimal. *)
Definition SHA256 (s : string) : string :=
  hex (flat_map (Sha256.be_bytes 4) (Sha256.digest (bytes s))).

(** ** JSON.stringify *)

Definition quote : string := str (chr 34).

(** QuoteJSONString: the double quote, the backslash and the control
    characters are escaped; every other byte is copied. *)
Definition escape (c : ascii) : string :=
  let n := code c in
  if n =? 34 then String (chr 92) quote
  else if n =? 92 then String (chr 92) (str (chr 92))
  else if n =? 8 then String (chr 92) "b"
  else if n =? 9 then String (chr 92) "t"
  else if n =? 10 then String (chr 92) "n"
  else if n =? 12 then String (chr 92) "f"
  else if n =? 13 then String (chr 92) "r"
  else if n <? 32 then String (chr 92) ("u00" +++ hex_byte n)
  else str c.

Definition QuoteJSONString (s : string) : string :=
  quote +++ String.concat EmptyString (map escape (list_ascii_of_string s)) +++ quote.

(** A number inside a template literal. *)
Definition Number_toString (n : Number) : string :=
  match n with
  | NaN => "NaN"
  | Num z => Z_toString z
  end.

Definition Number_toJSON (n : Number) : string :=
  match n with
  | NaN => "null"
  | Num z => Z_toString z
  end.

Definition hash_toJSON (h : option string) : string :=
  match h with
  | None => "null"
  | Some s => QuoteJSONString s
  end.

(** [JSON.stringify(v)]; [None] is the result [undefined].  The properties
    of an object are listed in the order in which JavaScript enumerates
    them.  A property whose value is [undefined] is left out; an array
    element that is [undefined] is written [null].  A number is written as
    [Number_toJSON] writes it, which is the text of JavaScript for [NaN]
    and for the safe integers (see [exact_numbers] below). *)
Fixpoint JSON_stringify (v : JSValue) : option string :=
  match v with
  | JUndefined => None
  | JNull => Some "null"
  | JBool b => Some (if b then "true" else "false")
  | JNum n => Some (Number_toJSON n)
  | JStr s => Some (QuoteJSONString s)
  | JArr items =>
      Some ("[" +++ String.concat ","
                     (map (fun item => match JSON_stringify item with
                                       | Some s => s
                                       | None => "null"
                                       end) items) +++ "]")
  | JObj props =>
      Some ("{" +++ String.concat ","
                     (flat_map (fun p => match JSON_stringify (snd p) with
                                         | Some s => [QuoteJSONString (fst p) +++ ":" +++ s]
                                         | None => []
                                         end) props) +++ "}")
  end.

(** [Number.isSafeInteger]: the integers that a JavaScript number holds
    exactly, from [-(2^53 - 1)] to [2^53 - 1]. *)
Definition isSafeInteger (n : Number) : bool :=
  match n with
  | NaN => false
  | Num z => Z.abs z <? 2 ^ 53
  end.

(** The values in which every number is [NaN] or a safe integer.  For
    them [JSON_stringify] gives the text that [JSON.stringify] writes.
    Beyond the safe integers a number of JavaScript is a rounded one; it
    is written with the fewest digits that read back as the same number
    and, from 10^21 on, with an exponent ([1e+21]), whereas
    [Number_toJSON] writes all the digits of the integer.  What is stated
    below about the text of a value is stated for the values of this
    kind. *)
Fixpoint exact_numbers (v : JSValue) : bool :=
  match v with
  | JNum NaN => true
  | JNum n => isSafeInteger n
  | JArr items => forallb exact_numbers items
  | JObj props => forallb (fun p => exact_numbers (snd p)) props
  | _ => true
  end.

(** ** class Block *)

Module BlockClass.

Record Block : Type := {
  hash : option string;                (* null, or the digest in hexadecimal *)
  height : Z;
  body : string;
  time : Number;
  previousBlockHash : option string
}.

Definition set_hash (h : option string) (b : Block) : Block :=
  {| hash := h; height := height b; body := body b; time := time b;
     previousBlockHash := previousBlockHash b |}.

Definition set_height (n : Z) (b : Block) : Block :=
  {| hash := hash b; height := n; body := body b; time := time b;
     previousBlockHash := previousBlockHash b |}.

Definition set_time (t : Number) (b : Block) : Block :=
  {| hash := hash b; height := height b; body := body b; time := t;
     previousBlockHash := previousBlockHash b |}.

Definition set_previousBlockHash (h : option string) (b : Block) : Block :=
  {| hash := hash b; height := height b; body := body b; time := time b;
     previousBlockHash := h |}.

(** [new Block(data)].  [JSON.stringify] returns [undefined] for a value it
    cannot write, and [Buffer.from(undefined)] throws. *)
Definition new (data : JSValue) : Completion Block :=
  match JSON_stringify data with
  | Some text =>
      Normal {| hash := None; height := 0; body := hex (bytes text);
                time := Num 0; previousBlockHash := None |}
  | None => Throw TypeError
  end.

(** [JSON.stringify] of a block, and of the copy [{...self, hash: null}]:
    both objects have the own properties [hash], [height], [body], [time],
    [previousBlockHash], enumerated in this order (the getter [getBData]
    lives on the prototype and is not written). *)
Definition JSON_stringify_Block (b : Block) : string :=
  "{" +++ QuoteJSONString "hash" +++ ":" +++ hash_toJSON (hash b) +++ ","
      +++ QuoteJSONString "height" +++ ":" +++ Z_toString (height b) +++ ","
      +++ QuoteJSONString "body" +++ ":" +++ QuoteJSONString (body b) +++ ","
      +++ QuoteJSONString "time" +++ ":" +++ Number_toJSON (time b) +++ ","
      +++ QuoteJSONString "previousBlockHash" +++ ":"
      +++ hash_toJSON (previousBlockHash b) +++ "}".

(** [validate()]: the promise is resolved with the comparison. *)
Definition validate (self : Block) : Promise bool :=
  let isvalidBlock :=
    hash_equal (hash self)
               (Some (SHA256 (JSON_stringify_Block (set_hash None self)))) in
  settle Pending (Fulfilled isvalidBlock).

Section Decoding.

(** [hex2ascii] and [JSON.parse]; the latter throws on text that is not
    JSON. *)
Variable hex2ascii : string -> string.
Variable JSON_parse : string -> Completion JSValue.

(** The getter [getBData].  The executor does not return after
    [resolve('Genesis Block!')]: it goes on to decode the body.  An
    exception thrown by the executor rejects the promise, which has no
    effect on a promise that is already resolved. *)
Definition getBData (self : Block) : Promise JSValue :=
  let p := Pending in
  let p := if height self =? 0
           then settle p (Fulfilled (JStr "Genesis Block!")) else p in
  match JSON_parse (hex2ascii (body self)) with
  | Throw e => settle p (Rejected (Thrown e))
  | Normal data =>
      if truthy data then settle p (Fulfilled data)
      else settle p (Rejected (Thrown (Error "The block has no data.")))
  end.

End Decoding.

End BlockClass.

Import BlockClass.

(** ** class Blockchain

    From here on [height] is the field of the chain; the field of a block is
    written [BlockClass.height]. *)

Record Blockchain : Type := {
  chain : list Block;
  height : Z
}.

(** [getChainHeight()]. *)
Definition getChainHeight (self : Blockchain) : Promise Z :=
  Fulfilled (height self).

(** [_getCurrentTimeStamp()], where [ms] is [new Date().getTime()]: the
    decimal text of [ms] without its last three characters, read back by
    [parseInt]. *)
Definition _getCurrentTimeStamp (ms : Z) : Number :=
  parseInt (slice_0_minus 3 (Z_toString ms)).

(** *** validateChain

    [forEach] calls the asynchronous callback on every block in turn.  Each
    call runs up to [await block.validate()], when the executor of
    [validate] has already computed the comparison, and is suspended there.  When
    [forEach] returns, the promise of [validateChain] is resolved with the
    array [errorLog], still empty.  The suspended callbacks are resumed, in
    the order of the blocks, before the reader that awaits the promise of
    [validateChain]: their jobs were queued first.  They push their records
    on the same array, which is what the reader then holds. *)

Record Job : Type := {
  job_block : Block;
  job_idx : nat;
  job_awaited : Promise bool
}.

(** The synchronous part of [forEach]: one suspended callback per block. *)
Fixpoint forEach_from (idx : nat) (blocks : list Block) : list Job :=
  match blocks with
  | [] => []
  | block :: rest =>
      {| job_block := block; job_idx := idx; job_awaited := validate block |}
      :: forEach_from (S idx) rest
  end.

(** [arr[idx - 1]]; [undefined] when [idx] is 0. *)
Definition previous (arr : list Block) (idx : nat) : option Block :=
  match idx with
  | O => None
  | S i => nth_error arr i
  end.

Definition validation_failed : ErrorRecord :=
  {| error := "Block validation failed!" |}.

Definition hash_mismatch : ErrorRecord :=
  {| error := "Hash os previous block do not match!" |}.

(** The rest of the callback, after the [await].  An exception ends the
    callback; the promise it rejects is the one [forEach] dropped. *)
Definition resume (arr : list Block) (errorLog : list ErrorRecord) (j : Job)
  : list ErrorRecord :=
  match job_awaited j with
  | Fulfilled isValidBlock =>
      let errorLog := if negb isValidBlock then errorLog ++ [validation_failed]
                      else errorLog in
      if BlockClass.height (job_block j) >? 0 then
        match previous arr (job_idx j) with
        | Some prev =>
            let checkHashChain :=
              hash_equal (previousBlockHash (job_block j)) (hash prev) in
            if negb checkHashChain then errorLog ++ [hash_mismatch] else errorLog
        | None => errorLog             (* TypeError: arr[-1] is undefined *)
        end
      else errorLog
  | _ => errorLog
  end.

(** [validateChain()]: the array held by a reader that awaits the promise. *)
Definition validateChain (self : Blockchain) : Promise (list ErrorRecord) :=
  let errorLog := [] in
  let jobs := forEach_from 0 (chain self) in
  Fulfilled (fold_left (resume (chain self)) jobs errorLog).

(** *** _addBlock *)

(** [self.chain[self.chain.length - 1].hash]. *)
Definition last_hash (blocks : list Block) : Completion (option string) :=
  match nth_error blocks (List.length blocks - 1) with
  | Some b => Normal (hash b)
  | None => Throw TypeError            (* the chain is empty *)
  end.

(** The executor of [_addBlock] up to [await this.validateChain()]: the
    block is given its height, its link, its time and its hash.  The chain
    is not touched. *)
Definition _addBlock_seal (self : Blockchain) (block : Block) (ms : Z)
  : Completion Block :=
  let newHeight := height self + 1 in
  let block := set_height newHeight block in
  let linked :=
    if newHeight >? 0 then
      match last_hash (chain self) with
      | Normal h => Normal (set_previousBlockHash h block)
      | Throw e => Throw e
      end
    else Normal block in
  match linked with
  | Normal block =>
      let block := set_time (_getCurrentTimeStamp ms) block in
      Normal (set_hash (Some (SHA256 (JSON_stringify_Block block))) block)
  | Throw e => Throw e
  end.

(** The executor of [_addBlock] after the [await]. *)
Definition _addBlock_settle (self : Blockchain) (block : Block)
  (awaited : Promise (list ErrorRecord)) : Blockchain * Promise Block :=
  match awaited with
  | Fulfilled errors =>
      if (List.length errors =? 0)%nat then
        ({| chain := chain self ++ [block];
            height := height self + 1 |},
         Fulfilled block)
      else (self, Rejected (ErrorLog errors))
  | Rejected r => (self, Rejected r)
  | Pending => (self, Pending)
  end.

Definition _addBlock (self : Blockchain) (block : Block) (ms : Z)
  : Blockchain * Promise Block :=
  match _addBlock_seal self block ms with
  | Normal sealed => _addBlock_settle self sealed (validateChain self)
  | Throw e => (self, Rejected (Thrown e))
  end.

(** The states of the [Blockchain] object that other code can observe while
    one call of [_addBlock] is in progress: when the call returns its
    pending promise (the executor is suspended at the [await]), and when the
    promise has settled. *)
Definition _addBlock_observable (self : Blockchain) (block : Block) (ms : Z)
  : list Blockchain :=
  match _addBlock_seal self block ms with
  | Normal sealed => [self; fst (_addBlock_settle self sealed (validateChain self))]
  | Throw e => [self]
  end.

(** *** constructor and initializeChain *)

Definition genesis_data : JSValue := JObj [("data", JStr "Genesis Block")].

Definition initializeChain (self : Blockchain) (ms : Z) : Blockchain * Promise unit :=
  if height self =? -1 then
    match BlockClass.new genesis_data with
    | Normal block =>
        match _addBlock self block ms with
        | (self', Fulfilled _) => (self', Fulfilled tt)
        | (self', Rejected r) => (self', Rejected r)
        | (self', Pending) => (self', Pending)
        end
    | Throw e => (self, Rejected (Thrown e))
    end
  else (self, Fulfilled tt).

(** The object as the constructor returns it: [initializeChain] has been
    called and is suspended inside [_addBlock]. *)
Definition constructed : Blockchain := {| chain := []; height := -1 |}.

(** The object once the call of [initializeChain] made by the constructor
    has completed. *)
Definition new_Blockchain (ms : Z) : Blockchain :=
  fst (initializeChain constructed ms).

(** *** Ownership *)

Definition requestMessageOwnershipVerification (address : string) (ms : Z)
  : Promise string :=
  Fulfilled (address +++ ":" +++ Number_toString (_getCurrentTimeStamp ms)
                     +++ ":starRegistry").

(** A computation that may put one question to [bitcoinMessage.verify]. *)
Inductive Asking (A : Type) : Type :=
| Done (a : A)
| Verify (message address signature : string) (k : Completion bool -> A).
Arguments Done {A} a.
Arguments Verify {A} message address signature k.

Definition answer {A : Type}
  (verify : string -> string -> string -> Completion bool) (c : Asking A) : A :=
  match c with
  | Done a => a
  | Verify message address signature k => k (verify message address signature)
  end.

(** [parseInt(message.split(':')[1])]; a missing field is [undefined],
    which [parseInt] reads as the text "undefined". *)
Definition timeFromMessage (message : string) : Number :=
  match nth_error (split ":" message) 1 with
  | Some field => parseInt field
  | None => parseInt "undefined"
  end.

(** [submitStar(address, message, signature, star)].  [ms] is the clock
    when [submitStar] reads it, [ms'] the clock when [_addBlock] reads it.
    Nothing settles the promise when the signature is not verified, and an
    exception thrown by [verify] inside the asynchronous executor is lost
    with the promise of that executor. *)
Definition submitStar_steps (self : Blockchain)
  (address message signature : string) (star : JSValue) (ms ms' : Z)
  : Asking (Blockchain * Promise Block) :=
  let currentTime := _getCurrentTimeStamp ms in
  let deltaTime := Number_sub currentTime (timeFromMessage message) in
  if Number_leb deltaTime (Num (5 * 60)) then
    Verify message address signature (fun verified =>
      match verified with
      | Normal true =>
          match BlockClass.new (JObj [("star", star); ("owner", JStr address)]) with
          | Normal newBlock => _addBlock self newBlock ms'
          | Throw e => (self, Pending)
          end
      | Normal false => (self, Pending)
      | Throw e => (self, Pending)
      end)
  else Done (self, Rejected (Message "Error: time passed 5 minutes.")).

Definition submitStar (verify : string -> string -> string -> Completion bool)
  (self : Blockchain) (address message signature : string) (star : JSValue)
  (ms ms' : Z) : Blockchain * Promise Block :=
  answer verify (submitStar_steps self address message signature star ms ms').

(** *** Lookups *)

(** [getBlockByHash(hash)]: an array is always truthy, so the promise is
    resolved with the first element of the filtered array, [undefined]
    ([None]) when it is empty. *)
Definition getBlockByHash (self : Blockchain) (h : string) : Promise (option Block) :=
  let block := filter (fun block => hash_equal (hash block) (Some h)) (chain self) in
  Fulfilled (nth_error block 0).

(** [getBlockByHeight(height)]: the block, or [null] ([None]). *)
Definition getBlockByHeight (self : Blockchain) (n : Z) : Promise (option Block) :=
  match nth_error (filter (fun p => BlockClass.height p =? n) (chain self)) 0 with
  | Some block => Fulfilled (Some block)
  | None => Fulfilled None
  end.

Section Stars.

Variable hex2ascii : string -> string.
Variable JSON_parse : string -> Completion JSValue.

(** [getStarsByWalletAddress(address)].  [block.getBData] is a promise, so
    [block.getBData.owner] and [block.getBData.star] read properties of a
    promise object. *)
Definition getStarsByWalletAddress (self : Blockchain) (address : string)
  : Promise (list JSValue) :=
  let stars :=
    map (fun block => Promise_get (getBData hex2ascii JSON_parse block) "star")
      (filter (fun block =>
                 strict_equal
                   (Promise_get (getBData hex2ascii JSON_parse block) "owner")
                   (JStr address))
         (chain self)) in
  Fulfilled stars.

End Stars.

(** ** The specification, stated on its own

    The definitions of module [Spec] do not come from the code.  They follow
    the words of the specification: the two rules of the chain (self-hash,
    linkage), the findings of a validation, the append that places the block
    before it validates, and the lookup by owner.  The code is compared with
    them below. *)

Module Spec.

(** Self-hash rule: the stored hash is the digest of the block written with
    its hash cleared. *)
Definition self_hash_ok (b : Block) : bool :=
  hash_equal (hash b) (Some (SHA256 (JSON_stringify_Block (set_hash None b)))).

(** Linkage rule for the block at position [idx]: when its height is
    positive and it has a predecessor, its [previousBlockHash] is the hash
    of the predecessor. *)
Definition link_ok (arr : list Block) (idx : nat) (b : Block) : bool :=
  if BlockClass.height b >? 0 then
    match previous arr idx with
    | Some prev => hash_equal (previousBlockHash b) (hash prev)
    | None => true
    end
  else true.

(** The findings about one block, then about the blocks from position
    [idx] on, in the order of the sequence. *)
Definition findings (arr : list Block) (idx : nat) (b : Block) : list ErrorRecord :=
  (if self_hash_ok b then [] else [validation_failed])
  ++ (if link_ok arr idx b then [] else [hash_mismatch]).

Fixpoint findings_from (arr : list Block) (idx : nat) (blocks : list Block)
  : list ErrorRecord :=
  match blocks with
  | [] => []
  | b :: rest => findings arr idx b ++ findings_from arr (S idx) rest
  end.

(** The chain has no violation. *)
Definition consistent (arr : list Block) : Prop :=
  forall idx b, nth_error arr idx = Some b ->
    self_hash_ok b = true /\ link_ok arr idx b = true.

(** Sealing as the specification words it: the hash is computed with the
    hash field cleared. *)
Definition seal_cleared (self : Blockchain) (block : Block) (ms : Z)
  : Completion Block :=
  match _addBlock_seal self block ms with
  | Normal sealed =>
      Normal (set_hash
                (Some (SHA256 (JSON_stringify_Block (set_hash None sealed))))
                sealed)
  | Throw e => Throw e
  end.

(** The append of the specification: seal, place the block at the end, run
    the validation over the chain that includes it, then keep the placement
    or undo it. *)
Definition append_placing_first (self : Blockchain) (block : Block) (ms : Z)
  : Blockchain * Promise Block :=
  match seal_cleared self block ms with
  | Normal sealed =>
      let placed := {| chain := chain self ++ [sealed]; height := height self + 1 |} in
      match validateChain placed with
      | Fulfilled [] => (placed, Fulfilled sealed)
      | Fulfilled errors => (self, Rejected (ErrorLog errors))
      | Rejected r => (self, Rejected r)
      | Pending => (self, Pending)
      end
  | Throw e => (self, Rejected (Thrown e))
  end.

(** Chain linkage as the data model states it: every block after the first
    carries the hash of the block before it. *)
Definition linked (arr : list Block) : Prop :=
  forall i b prev, nth_error arr (S i) = Some b -> nth_error arr i = Some prev ->
    previousBlockHash b = hash prev.

(** [value.name] on a decoded payload. *)
Definition property (v : JSValue) (name : string) : JSValue :=
  match v with
  | JObj props =>
      match find (fun p => String.eqb (fst p) name) props with
      | Some p => snd p
      | None => JUndefined
      end
  | _ => JUndefined
  end.

Section Owner.

Variable hex2ascii : string -> string.
Variable JSON_parse : string -> Completion JSValue.

(** The stars of the payloads whose owner is [address], in the order of the
    blocks; a payload that cannot be decoded fails the whole lookup. *)
Fixpoint stars_of (blocks : list Block) (address : string)
  : Promise (list JSValue) :=
  match blocks with
  | [] => Fulfilled []
  | block :: rest =>
      match getBData hex2ascii JSON_parse block, stars_of rest address with
      | Fulfilled payload, Fulfilled stars =>
          if strict_equal (property payload "owner") (JStr address)
          then Fulfilled (property payload "star" :: stars)
          else Fulfilled stars
      | Rejected r, _ => Rejected r
      | _, Rejected r => Rejected r
      | _, _ => Pending
      end
  end.

(** The lookup by owner: every block except the genesis block is scanned. *)
Definition findByOwner (self : Blockchain) (address : string)
  : Promise (list JSValue) :=
  stars_of (tl (chain self)) address.

End Owner.

End Spec.

Import Spec.

(** ** Runs *)

(** The chains that a run of the program can hold, with the number of
    appends that succeeded: the chain of a new [Blockchain] once its genesis
    block is in, then one call of [_addBlock] after the other, each on a
    block just built by [new Block], as [initializeChain] and [submitStar]
    make them.  A call that is rejected counts for nothing. *)
Inductive appended : Blockchain -> nat -> Prop :=
| appended_new : forall ms, appended (new_Blockchain ms) 0
| appended_ok : forall self n data block ms self' sealed,
    appended self n ->
    BlockClass.new data = Normal block ->
    _addBlock self block ms = (self', Fulfilled sealed) ->
    appended self' (S n)
| appended_failed : forall self n data block ms self' r,
    appended self n ->
    BlockClass.new data = Normal block ->
    _addBlock self block ms = (self', Rejected r) ->
    appended self' n.

(** Successful appends of blocks of any kind: the chains reached from a
    new [Blockchain] by calls of [_addBlock] that were all fulfilled,
    whatever block each call was given, together with the blocks as they
    were handed over, in the order of the calls. *)
Inductive reached : Blockchain -> list Block -> Prop :=
| reached_new : forall ms, reached (new_Blockchain ms) []
| reached_ok : forall self passed block ms self' sealed,
    reached self passed ->
    _addBlock self block ms = (self', Fulfilled sealed) ->
    reached self' (passed ++ [block]).

(** What holds of every chain of a run. *)
Record sound (self : Blockchain) (n : nat) : Prop := {
  sound_height : height self = Z.of_nat n;
  sound_length : List.length (chain self) = S n;
  sound_consistent : consistent (chain self);
  sound_heights : forall i b, nth_error (chain self) i = Some b ->
                              BlockClass.height b = Z.of_nat i
}.

(** The rejection of [submitStar] when the window has passed. *)
Definition expired : Promise Block := Rejected (Message "Error: time passed 5 minutes.").

(** ** Sample data *)

Definition star_of_A : JSValue :=
  JObj [("dec", JStr "68 52 56.9"); ("ra", JStr "16h 29m 1.0s");
        ("story", JStr "first star")].

(** The block that [new Block(data)] builds, for data that can be written. *)
Definition block_of (data : JSValue) : Block :=
  match BlockClass.new data with
  | Normal b => b
  | Throw _ => {| hash := None; BlockClass.height := 0; body := EmptyString;
                  time := Num 0; previousBlockHash := None |}
  end.

(** A new chain, its genesis block sealed at 1600000000. *)
Definition fresh : Blockchain := new_Blockchain 1600000000123.

(** The chain after one star of address addrA. *)
Definition one_star : Blockchain :=
  fst (_addBlock fresh
         (block_of (JObj [("star", star_of_A); ("owner", JStr "addrA")]))
         1600000100500).

(** A block whose hash field is already set when it is handed over. *)
Definition presealed : Block :=
  set_hash (Some "e3b0c44298fc1c149afbf4c8996fb92427ae41e4649b934ca495991b7852b855")
    (block_of (JObj [("star", star_of_A); ("owner", JStr "addrA")])).

(** Two blocks that were never sealed, at heights 0 and 1. *)
Definition never_sealed : Blockchain :=
  {| chain := [ set_height 0 (block_of genesis_data);
                set_height 1 (block_of (JObj [("star", star_of_A);
                                              ("owner", JStr "addrA")])) ];
     height := 1 |}.

(** The new chain after the body of its genesis block has been overwritten. *)
Definition tampered : Blockchain :=
  {| chain := map (fun b => {| hash := hash b;
                               BlockClass.height := BlockClass.height b;
                               body := "00"; time := time b;
                               previousBlockHash := previousBlockHash b |})
                  (chain fresh);
     height := height fresh |}.

Definition says_no (message address signature : string) : Completion bool :=
  Normal false.

Definition says_yes (message address signature : string) : Completion bool :=
  Normal true.

Definition not_json (text : string) : Completion JSValue := Throw SyntaxError.

Definition same_text (text : string) : string := text.

(** ** Notions used to state further properties *)

(** [s.includes(c)] for one character. *)
Fixpoint contains (c : ascii) (s : string) : bool :=
  match s with
  | EmptyString => false
  | String x rest => Ascii.eqb x c || contains c rest
  end.

(** The array after [arr[i] = b]; an index past the end leaves it as it
    is (no assignment is made there in what follows). *)
Fixpoint replace_at (i : nat) (b : Block) (arr : list Block) : list Block :=
  match arr, i with
  | [], _ => []
  | _ :: rest, O => b :: rest
  | x :: rest, S i' => x :: replace_at i' b rest
  end.

Definition set_body (text : string) (b : Block) : Block :=
  {| hash := hash b; BlockClass.height := BlockClass.height b; body := text;
     time := time b; previousBlockHash := previousBlockHash b |}.

(** The height field counts the blocks: it is the length of the chain
    minus one. *)
Definition counts_blocks (self : Blockchain) : Prop :=
  height self = Z.of_nat (List.length (chain self)) - 1.

(** The last block of the chain: [self.chain[self.chain.length - 1]]. *)
Definition last_block (self : Blockchain) : option Block :=
  nth_error (chain self) (List.length (chain self) - 1).

(** Two new chains put end to end: two genesis blocks, each sealed on its
    own. *)
Definition two_genesis : Blockchain :=
  {| chain := chain (new_Blockchain 1600000000123)
              ++ chain (new_Blockchain 1700000000456);
     height := 1 |}.

(** A decoder that gives the payload of the sample star for every text. *)
Definition payload_of_A : JSValue :=
  JObj [("star", star_of_A); ("owner", JStr "addrA")].

Definition parse_as_payload_of_A (text : string) : Completion JSValue :=
  Normal payload_of_A.

(** A star whose description holds numbers. *)
Definition star_with_numbers : JSValue :=
  JObj [("name", JStr "Vega"); ("magnitude", JNum (Num 3));
        ("catalog", JArr [JNum (Num 172167); JNum (Num (-91262)); JNull])].

(** The genesis block of the sample chain. *)
Definition genesis_of_fresh : Block :=
  match chain fresh with
  | g :: _ => g
  | [] => block_of genesis_data
  end.

Arguments SHA256 : simpl never.
Arguments JSON_stringify_Block : simpl never.
Arguments _getCurrentTimeStamp : simpl never.
Arguments JSON_stringify : simpl never.
Arguments hex : simpl never.

(** * Properties *)

(** ** SHA-256 on known digests *)

Example SHA256_abc :
  SHA256 "abc" = "ba7816bf8f01cfea414140de5dae2223b00361a396177a9cb410ff61f20015ad".
Proof. vm_compute. reflexivity. Qed.

Example SHA256_empty :
  SHA256 EmptyString
  = "e3b0c44298fc1c149afbf4c8996fb92427ae41e4649b934ca495991b7852b855".
Proof. vm_compute. reflexivity. Qed.

(** A message of two blocks: the text of the genesis block of [fresh],
    whose digest is the hash that the block is given. *)
Example SHA256_genesis :
  map hash (chain fresh)
  = [Some "5feb6dfa383291bb0caf170bd722be87e34e0af4ff296e7af482cbf1d850cffd"]
  /\ map body (chain fresh) = ["7b2264617461223a2247656e6573697320426c6f636b227d"]
  /\ map time (chain fresh) = [Num 1600000000].
Proof. vm_compute. repeat split. Qed.

(** ** The clock in seconds *)

Lemma decimal_fuel : forall f1 f2 n,
  0 <= n < 2 ^ (Z.of_nat f1 + 1) -> n < 2 ^ (Z.of_nat f2 + 1) ->
  decimal f1 n = decimal f2 n.
Proof.
  induction f1 as [|f1 IH]; intros f2 n H1 H2.
  - change (2 ^ (Z.of_nat 0 + 1)) with 2 in H1.
    destruct f2; simpl; [reflexivity|].
    replace (n <? 10) with true by (symmetry; apply Z.ltb_lt; lia). reflexivity.
  - destruct f2 as [|f2]; simpl.
    + change (2 ^ (Z.of_nat 0 + 1)) with 2 in H2.
      replace (n <? 10) with true by (symmetry; apply Z.ltb_lt; lia). reflexivity.
    + destruct (n <? 10) eqn:E; [reflexivity|]. apply Z.ltb_ge in E.
      f_equal. apply IH.
      * split; [apply Z.div_pos; lia|].
        apply Z.div_lt_upper_bound; [lia|].
        replace (Z.of_nat (S f1) + 1) with (Z.succ (Z.of_nat f1 + 1)) in H1 by lia.
        rewrite Z.pow_succ_r in H1 by lia. lia.
      * apply Z.div_lt_upper_bound; [lia|].
        replace (Z.of_nat (S f2) + 1) with (Z.succ (Z.of_nat f2 + 1)) in H2 by lia.
        rewrite Z.pow_succ_r in H2 by lia. lia.
Qed.

Lemma log2_fuel : forall n, 0 <= n -> n < 2 ^ (Z.of_nat (Z.to_nat (Z.log2 n)) + 1).
Proof.
  intros n Hn. rewrite Z2Nat.id by apply Z.log2_nonneg.
  destruct (Z.eq_dec n 0) as [->|Hz]; [reflexivity|].
  replace (Z.log2 n + 1) with (Z.succ (Z.log2 n)) by lia.
  apply Z.log2_spec. lia.
Qed.

Lemma dec_small : forall n, 0 <= n < 10 -> dec n = [n].
Proof.
  intros n H. unfold dec. destruct (Z.to_nat (Z.log2 n)); simpl; [reflexivity|].
  replace (n <? 10) with true by (symmetry; apply Z.ltb_lt; lia). reflexivity.
Qed.

Lemma dec_step : forall n, 10 <= n -> dec n = dec (n / 10) ++ [n mod 10].
Proof.
  intros n H. unfold dec.
  pose proof (log2_fuel n ltac:(lia)) as Hf.
  destruct (Z.to_nat (Z.log2 n)) as [|f] eqn:E.
  - change (2 ^ (Z.of_nat 0 + 1)) with 2 in Hf. lia.
  - simpl. replace (n <? 10) with false by (symmetry; apply Z.ltb_ge; lia).
    f_equal. apply decimal_fuel.
    + split; [apply Z.div_pos; lia|].
      apply Z.div_lt_upper_bound; [lia|].
      replace (Z.of_nat (S f) + 1) with (Z.succ (Z.of_nat f + 1)) in Hf by lia.
      rewrite Z.pow_succ_r in Hf by lia. lia.
    + apply log2_fuel. apply Z.div_pos; lia.
Qed.

Lemma dec_spec : forall n, 0 <= n ->
  Forall is_digit (dec n) /\ horner 0 (dec n) = n
  /\ (1 <= n -> exists d rest, dec n = d :: rest /\ 1 <= d).
Proof.
  intros n Hn. revert Hn.
  induction n as [n IH] using (well_founded_induction (Z.lt_wf 0)). intros Hn.
  destruct (Z_lt_le_dec n 10) as [Hsmall|Hbig].
  - rewrite dec_small by lia. split; [|split].
    + constructor; [unfold is_digit; lia | constructor].
    + unfold horner; cbn [fold_left]; lia.
    + intros H1. now exists n, [].
  - rewrite dec_step by assumption.
    destruct (IH (n / 10)) as (Hd & Hv & Hhd).
    { split; [apply Z.div_pos; lia | apply Z.div_lt; lia]. }
    { apply Z.div_pos; lia. }
    split; [|split].
    + apply Forall_app. split; [assumption|].
      constructor; [|constructor]. unfold is_digit.
      pose proof (Z.mod_pos_bound n 10). lia.
    + unfold horner in *. rewrite fold_left_app, Hv. cbn [fold_left].
      pose proof (Z.div_mod n 10). lia.
    + intros _. destruct Hhd as (d & rest & E & Hd1).
      { apply Z.div_le_lower_bound; lia. }
      rewrite E. now exists d, (rest ++ [n mod 10]).
Qed.

Lemma code_chr : forall n, 0 <= n < 256 -> code (chr n) = n.
Proof.
  intros n H. unfold code, chr.
  rewrite nat_ascii_embedding by lia. lia.
Qed.

Lemma bytes_digits_text : forall ds,
  Forall is_digit ds -> bytes (digits_text ds) = map (fun d => 48 + d) ds.
Proof.
  intros ds H. unfold bytes, digits_text.
  rewrite list_ascii_of_string_of_list_ascii, map_map.
  apply map_ext_in. intros d Hd. rewrite Forall_forall in H.
  specialize (H d Hd). unfold is_digit in H. apply code_chr. lia.
Qed.

Lemma digits_text_app : forall l1 l2,
  digits_text (l1 ++ l2) = digits_text l1 +++ digits_text l2.
Proof.
  intros l1 l2. unfold digits_text.
  induction l1 as [|d l1 IH]; cbn [map app string_of_list_ascii append];
    [reflexivity | now rewrite IH].
Qed.

Lemma digits_text_length : forall l, String.length (digits_text l) = List.length l.
Proof.
  intros l. unfold digits_text.
  induction l as [|d l IH]; cbn [map string_of_list_ascii String.length List.length];
    [reflexivity | now rewrite IH].
Qed.

Lemma substring_prefix : forall s1 s2,
  substring 0 (String.length s1) (s1 +++ s2) = s1.
Proof.
  induction s1 as [|c s1 IH]; intros s2; simpl.
  - destruct s2; reflexivity.
  - now rewrite IH.
Qed.

Lemma string_length_app : forall s1 s2,
  String.length (s1 +++ s2) = (String.length s1 + String.length s2)%nat.
Proof.
  induction s1 as [|c s1 IH]; intros s2; simpl; [reflexivity | now rewrite IH].
Qed.

Lemma slice_digits_text : forall l a b c,
  slice_0_minus 3 (digits_text (l ++ [a; b; c])) = digits_text l.
Proof.
  intros l a b c. unfold slice_0_minus.
  rewrite digits_text_app, string_length_app, !digits_text_length. simpl List.length.
  replace (List.length l + 3 - 3)%nat with (String.length (digits_text l))
    by (rewrite digits_text_length; lia).
  apply substring_prefix.
Qed.

Lemma digit_value_digit : forall d, is_digit d -> digit_value 10 (48 + d) = Some d.
Proof.
  intros d [H0 H9]. unfold digit_value.
  replace (48 <=? 48 + d) with true by (symmetry; apply Z.leb_le; lia).
  replace (48 + d <=? 57) with true by (symmetry; apply Z.leb_le; lia).
  cbn [andb]. replace (48 + d - 48 <? 10) with true by (symmetry; apply Z.ltb_lt; lia).
  f_equal. lia.
Qed.

Lemma digits_horner : forall ds a,
  Forall is_digit ds ->
  digits 10 (Some a) (map (fun d => 48 + d) ds) = Some (horner a ds).
Proof.
  induction ds as [|d ds IH]; intros a H; cbn [map digits]; [reflexivity|].
  inversion H as [|? ? Hd Hds]; subst.
  rewrite digit_value_digit by assumption. now rewrite IH.
Qed.

Lemma digits_horner_none : forall ds,
  Forall is_digit ds -> ds <> [] ->
  digits 10 None (map (fun d => 48 + d) ds) = Some (horner 0 ds).
Proof.
  intros [|d ds] H Hne; [congruence|]. cbn [map digits].
  inversion H as [|? ? Hd Hds]; subst.
  rewrite digit_value_digit by assumption. now rewrite digits_horner.
Qed.

Lemma parseInt_from_digit : forall s b tail,
  bytes s = b :: tail -> 49 <= b <= 57 ->
  parseInt s = match digits 10 None (b :: tail) with
               | Some v => Num v
               | None => NaN
               end.
Proof.
  intros s b tail Hs Hb. unfold parseInt. rewrite Hs.
  assert (Hcases : b = 49 \/ b = 50 \/ b = 51 \/ b = 52 \/ b = 53 \/ b = 54
                   \/ b = 55 \/ b = 56 \/ b = 57) by lia.
  destruct Hcases as [->|[->|[->|[->|[->|[->|[->|[->| ->]]]]]]]];
    cbn [List.length skip_white_space];
    change (strip_any white_space (_ :: tail)) with (@None (list Z));
    cbv iota beta;
    destruct (digits 10 None (_ :: tail)) as [v|]; try reflexivity;
    f_equal; destruct v; reflexivity.
Qed.

Lemma parseInt_digits_text : forall d rest,
  1 <= d <= 9 -> Forall is_digit rest ->
  parseInt (digits_text (d :: rest)) = Num (horner 0 (d :: rest)).
Proof.
  intros d rest Hd Hrest.
  assert (Hall : Forall is_digit (d :: rest))
    by (constructor; [unfold is_digit; lia | assumption]).
  rewrite (parseInt_from_digit _ (48 + d) (map (fun d => 48 + d) rest)).
  - change (48 + d :: map (fun d => 48 + d) rest)
      with (map (fun d => 48 + d) (d :: rest)).
    rewrite digits_horner_none by (assumption || discriminate). reflexivity.
  - now rewrite bytes_digits_text.
  - lia.
Qed.

(** For a clock past the first second of 1970 the timestamp is the clock in
    whole seconds. *)
Lemma getCurrentTimeStamp_seconds : forall ms,
  1000 <= ms -> _getCurrentTimeStamp ms = Num (ms / 1000).
Proof.
  intros ms Hms. unfold _getCurrentTimeStamp, Z_toString.
  replace (ms <? 0) with false by (symmetry; apply Z.ltb_ge; lia).
  assert (H1 : 100 <= ms / 10) by (apply Z.div_le_lower_bound; lia).
  assert (H2 : 10 <= ms / 10 / 10) by (apply Z.div_le_lower_bound; lia).
  assert (H3 : 1 <= ms / 10 / 10 / 10) by (apply Z.div_le_lower_bound; lia).
  rewrite (dec_step ms), (dec_step (ms / 10)), (dec_step (ms / 10 / 10)) by lia.
  rewrite <- !app_assoc. cbn [app]. rewrite slice_digits_text.
  replace (ms / 1000) with (ms / 10 / 10 / 10)
    by (rewrite !Z.div_div by lia; reflexivity).
  destruct (dec_spec (ms / 10 / 10 / 10)) as (Hd & Hv & Hhd); [lia|].
  destruct (Hhd H3) as (d & rest & E & Hd1). rewrite E in *.
  inversion Hd as [|? ? Hdd Hrest]; subst. unfold is_digit in Hdd.
  rewrite parseInt_digits_text by (assumption || lia). now rewrite Hv.
Qed.

(** ** Validation *)

Lemma hash_equal_refl : forall h, hash_equal h h = true.
Proof.
  intros [s|]; simpl; [apply String.eqb_refl | reflexivity].
Qed.

Lemma hash_equal_eq : forall a b, hash_equal a b = true <-> a = b.
Proof.
  intros [x|] [y|]; simpl; split; intro H; try congruence; try discriminate.
  - apply String.eqb_eq in H. now subst.
  - injection H as ->. apply String.eqb_refl.
Qed.

Lemma validate_self_hash : forall b, validate b = Fulfilled (self_hash_ok b).
Proof. reflexivity. Qed.

Lemma resume_findings : forall arr log idx b,
  resume arr log {| job_block := b; job_idx := idx; job_awaited := validate b |}
  = log ++ findings arr idx b.
Proof.
  intros arr log idx b.
  unfold resume, findings, link_ok; simpl.
  fold (self_hash_ok b).
  destruct (self_hash_ok b); simpl;
    destruct (BlockClass.height b >? 0); simpl;
    try (destruct (previous arr idx) as [prev|]; simpl;
         try destruct (hash_equal (previousBlockHash b) (hash prev)); simpl);
    rewrite <- ?app_assoc, ?app_nil_r; reflexivity.
Qed.

Lemma fold_resume : forall arr blocks idx log,
  fold_left (resume arr) (forEach_from idx blocks) log
  = log ++ findings_from arr idx blocks.
Proof.
  intros arr blocks; induction blocks as [|b rest IH]; intros idx log; simpl.
  - now rewrite app_nil_r.
  - rewrite resume_findings, IH, app_assoc. reflexivity.
Qed.

Lemma validateChain_findings : forall self,
  validateChain self = Fulfilled (findings_from (chain self) 0 (chain self)).
Proof.
  intros self. unfold validateChain. now rewrite fold_resume.
Qed.

Lemma findings_nil : forall arr idx b,
  findings arr idx b = [] <-> self_hash_ok b = true /\ link_ok arr idx b = true.
Proof.
  intros arr idx b. unfold findings.
  destruct (self_hash_ok b), (link_ok arr idx b); simpl; split;
    try discriminate; try tauto; intros [? ?]; discriminate.
Qed.

Lemma findings_from_nil : forall arr blocks idx,
  findings_from arr idx blocks = [] <->
  (forall k b, nth_error blocks k = Some b ->
     self_hash_ok b = true /\ link_ok arr (idx + k) b = true).
Proof.
  intros arr blocks; induction blocks as [|b rest IH]; intros idx; simpl.
  - split; [intros _ [|k] b H; discriminate | reflexivity].
  - split.
    + intros H. apply app_eq_nil in H as [Hb Hrest].
      intros [|k] b' Hk; simpl in Hk.
      * injection Hk as <-. rewrite Nat.add_0_r. now apply findings_nil.
      * rewrite <- Nat.add_succ_comm. now apply (proj1 (IH (S idx)) Hrest).
    + intros H.
      assert (Hb : findings arr idx b = []).
      { apply findings_nil. rewrite <- (Nat.add_0_r idx). now apply (H 0%nat). }
      assert (Hrest : findings_from arr (S idx) rest = []).
      { apply IH. intros k b' Hk. rewrite Nat.add_succ_comm. now apply (H (S k)). }
      now rewrite Hb, Hrest.
Qed.

Lemma findings_from_messages : forall arr blocks idx r,
  In r (findings_from arr idx blocks) -> r = validation_failed \/ r = hash_mismatch.
Proof.
  intros arr blocks; induction blocks as [|b rest IH]; intros idx r; simpl.
  - contradiction.
  - rewrite in_app_iff. intros [Hin|Hin]; [|now apply (IH (S idx))].
    unfold findings in Hin. rewrite in_app_iff in Hin.
    destruct (self_hash_ok b), (link_ok arr idx b); simpl in Hin; intuition.
Qed.

Lemma validateChain_nil : forall self,
  validateChain self = Fulfilled [] <-> consistent (chain self).
Proof.
  intros self. rewrite validateChain_findings. unfold consistent.
  rewrite <- (findings_from_nil (chain self) (chain self) 0).
  split; [intros H; now injection H | intros ->; reflexivity].
Qed.

(** ** Sealing *)

Lemma last_hash_normal : forall blocks h,
  last_hash blocks = Normal h ->
  exists b, nth_error blocks (List.length blocks - 1) = Some b /\ hash b = h.
Proof.
  intros blocks h. unfold last_hash.
  destruct (nth_error blocks (List.length blocks - 1)) as [b|]; intro H;
    [injection H as <-; now exists b | discriminate].
Qed.

Lemma last_hash_throw : forall blocks e,
  last_hash blocks = Throw e -> blocks = [] /\ e = TypeError.
Proof.
  intros blocks e. unfold last_hash.
  destruct (nth_error blocks (List.length blocks - 1)) as [b|] eqn:E; intro H;
    [discriminate|].
  injection H as <-. split; [|reflexivity].
  apply nth_error_None in E. destruct blocks; [reflexivity | simpl in E; lia].
Qed.

Lemma seal_fields : forall self block ms sealed,
  _addBlock_seal self block ms = Normal sealed ->
  BlockClass.height sealed = height self + 1
  /\ body sealed = body block
  /\ time sealed = _getCurrentTimeStamp ms
  /\ (height self + 1 > 0 ->
      exists b, nth_error (chain self) (List.length (chain self) - 1) = Some b
                /\ previousBlockHash sealed = hash b)
  /\ (height self + 1 <= 0 -> previousBlockHash sealed = previousBlockHash block)
  /\ hash sealed = Some (SHA256 (JSON_stringify_Block (set_hash (hash block) sealed))).
Proof.
  intros self block ms sealed. unfold _addBlock_seal.
  destruct (height self + 1 >? 0) eqn:Hpos.
  - destruct (last_hash (chain self)) as [h|e] eqn:Hlast; [|discriminate].
    intro H; injection H as <-. apply last_hash_normal in Hlast as [b [Hb <-]].
    apply Z.gtb_lt in Hpos. simpl.
    repeat split; try reflexivity; try lia. intros _. now exists b.
  - intro H; injection H as <-. simpl.
    assert (Hle : height self + 1 <= 0) by (rewrite Z.gtb_ltb in Hpos; apply Z.ltb_ge in Hpos; lia).
    repeat split; try reflexivity; try lia.
Qed.

Lemma seal_throws : forall self block ms e,
  _addBlock_seal self block ms = Throw e ->
  height self + 1 > 0 /\ chain self = [] /\ e = TypeError.
Proof.
  intros self block ms e. unfold _addBlock_seal.
  destruct (height self + 1 >? 0) eqn:Hpos; [|discriminate].
  destruct (last_hash (chain self)) as [h|e'] eqn:Hlast; [discriminate|].
  intro H; injection H as <-. apply last_hash_throw in Hlast as [-> ->].
  apply Z.gtb_lt in Hpos. split; [lia | split; reflexivity].
Qed.

Lemma set_hash_None_sealed : forall b d,
  hash b = None -> set_hash None (set_hash (Some d) b) = b.
Proof. intros [h n bd t p] d; simpl; intros ->; reflexivity. Qed.

Lemma sealed_self_hash : forall self block ms sealed,
  hash block = None ->
  _addBlock_seal self block ms = Normal sealed ->
  self_hash_ok sealed = true.
Proof.
  intros self block ms sealed Hnull Hseal.
  apply seal_fields in Hseal as (_ & _ & _ & _ & _ & Hh).
  unfold self_hash_ok. rewrite Hh, Hnull. apply hash_equal_refl.
Qed.

Lemma seal_cleared_unsealed : forall self block ms,
  hash block = None -> seal_cleared self block ms = _addBlock_seal self block ms.
Proof.
  intros self block ms Hnull. unfold seal_cleared.
  destruct (_addBlock_seal self block ms) as [sealed|e] eqn:Hseal; [|reflexivity].
  f_equal. apply seal_fields in Hseal as (_ & _ & _ & _ & _ & Hh).
  rewrite Hnull in Hh. destruct sealed as [h n bd t p]; simpl in *.
  unfold set_hash; simpl. now rewrite Hh.
Qed.

(** ** Validation of a chain with one more block *)

Lemma previous_app : forall arr x idx,
  (idx <= List.length arr)%nat -> previous (arr ++ [x]) idx = previous arr idx.
Proof.
  intros arr x [|i] H; simpl; [reflexivity|].
  apply nth_error_app1. lia.
Qed.

Lemma findings_app_arr : forall arr x idx b,
  (idx <= List.length arr)%nat -> findings (arr ++ [x]) idx b = findings arr idx b.
Proof.
  intros arr x idx b H. unfold findings, link_ok. now rewrite previous_app.
Qed.

Lemma findings_from_app_arr : forall arr x blocks idx,
  (idx + List.length blocks <= List.length arr)%nat ->
  findings_from (arr ++ [x]) idx blocks = findings_from arr idx blocks.
Proof.
  intros arr x blocks; induction blocks as [|b rest IH]; intros idx H; simpl in *.
  - reflexivity.
  - rewrite findings_app_arr by lia. rewrite IH by lia. reflexivity.
Qed.

Lemma findings_from_app : forall arr l1 l2 idx,
  findings_from arr idx (l1 ++ l2)
  = findings_from arr idx l1 ++ findings_from arr (idx + List.length l1) l2.
Proof.
  intros arr l1; induction l1 as [|b rest IH]; intros l2 idx; simpl.
  - now rewrite Nat.add_0_r.
  - rewrite IH, <- app_assoc, Nat.add_succ_comm. reflexivity.
Qed.

Lemma validateChain_placed : forall self x n,
  validateChain {| chain := chain self ++ [x]; height := n |}
  = Fulfilled (findings_from (chain self) 0 (chain self)
               ++ findings (chain self ++ [x]) (List.length (chain self)) x).
Proof.
  intros self x n. rewrite validateChain_findings. simpl.
  rewrite findings_from_app, findings_from_app_arr by (simpl; lia).
  simpl. now rewrite app_nil_r.
Qed.

Lemma sealed_link : forall self block ms sealed,
  _addBlock_seal self block ms = Normal sealed ->
  link_ok (chain self ++ [sealed]) (List.length (chain self)) sealed = true.
Proof.
  intros self block ms sealed Hseal.
  apply seal_fields in Hseal as (Hh & _ & _ & Hprev & _ & _).
  unfold link_ok. destruct (BlockClass.height sealed >? 0) eqn:Hpos; [|reflexivity].
  apply Z.gtb_lt in Hpos.
  destruct Hprev as [b [Hb Hp]]; [lia|].
  destruct (chain self) as [|b0 rest] eqn:Hc; [reflexivity|].
  simpl List.length in *. simpl previous.
  replace (S (List.length rest) - 1)%nat with (List.length rest) in Hb by lia.
  change (b0 :: rest ++ [sealed]) with ((b0 :: rest) ++ [sealed]).
  rewrite nth_error_app1 by (simpl; lia).
  rewrite Hb, Hp. apply hash_equal_refl.
Qed.

Lemma sealed_findings : forall self block ms sealed,
  hash block = None ->
  _addBlock_seal self block ms = Normal sealed ->
  findings (chain self ++ [sealed]) (List.length (chain self)) sealed = [].
Proof.
  intros self block ms sealed Hnull Hseal. apply findings_nil. split.
  - eapply sealed_self_hash; eauto.
  - eapply sealed_link; eauto.
Qed.

(** ** _addBlock *)

Lemma addBlock_clean : forall self block ms sealed,
  _addBlock_seal self block ms = Normal sealed ->
  validateChain self = Fulfilled [] ->
  _addBlock self block ms
  = ({| chain := chain self ++ [sealed]; height := height self + 1 |},
     Fulfilled sealed).
Proof.
  intros self block ms sealed Hseal Hval. unfold _addBlock.
  rewrite Hseal, Hval. reflexivity.
Qed.

Lemma addBlock_errors : forall self block ms sealed errors,
  _addBlock_seal self block ms = Normal sealed ->
  validateChain self = Fulfilled errors ->
  errors <> [] ->
  _addBlock self block ms = (self, Rejected (ErrorLog errors)).
Proof.
  intros self block ms sealed errors Hseal Hval Hne. unfold _addBlock.
  rewrite Hseal, Hval. destruct errors; [congruence | reflexivity].
Qed.

Lemma addBlock_fulfilled : forall self block ms self' b,
  _addBlock self block ms = (self', Fulfilled b) ->
  _addBlock_seal self block ms = Normal b
  /\ validateChain self = Fulfilled []
  /\ self' = {| chain := chain self ++ [b]; height := height self + 1 |}.
Proof.
  intros self block ms self' b. unfold _addBlock.
  destruct (_addBlock_seal self block ms) as [sealed|e]; [|discriminate].
  rewrite validateChain_findings. simpl.
  destruct (findings_from (chain self) 0 (chain self)); simpl; [|discriminate].
  intro H; injection H as <- <-. repeat split.
Qed.

Lemma addBlock_rejected : forall self block ms self' r,
  _addBlock self block ms = (self', Rejected r) -> self' = self.
Proof.
  intros self block ms self' r. unfold _addBlock.
  destruct (_addBlock_seal self block ms) as [sealed|e].
  - rewrite validateChain_findings. simpl.
    destruct (findings_from (chain self) 0 (chain self)); simpl;
      [discriminate | intro H; now injection H].
  - intro H; now injection H.
Qed.

Lemma addBlock_unsealed_matches : forall self block ms,
  hash block = None ->
  _addBlock self block ms = append_placing_first self block ms.
Proof.
  intros self block ms Hnull. unfold _addBlock, append_placing_first.
  rewrite seal_cleared_unsealed by assumption.
  destruct (_addBlock_seal self block ms) as [sealed|e] eqn:Hseal; [|reflexivity].
  rewrite validateChain_placed, (sealed_findings _ _ _ _ Hnull Hseal), app_nil_r.
  rewrite validateChain_findings. simpl.
  destruct (findings_from (chain self) 0 (chain self)); reflexivity.
Qed.

(** ** The chains of a run *)

Lemma new_unsealed : forall data b,
  BlockClass.new data = Normal b ->
  hash b = None /\ BlockClass.height b = 0 /\ previousBlockHash b = None.
Proof.
  intros data b. unfold BlockClass.new.
  destruct (JSON_stringify data); intro H; [injection H as <-|discriminate].
  repeat split.
Qed.

Lemma new_object : forall props, exists b, BlockClass.new (JObj props) = Normal b.
Proof. intros props. eexists. reflexivity. Qed.

Lemma new_Blockchain_genesis : forall ms,
  exists block sealed,
    BlockClass.new genesis_data = Normal block
    /\ _addBlock_seal constructed block ms = Normal sealed
    /\ new_Blockchain ms = {| chain := [sealed]; height := 0 |}.
Proof.
  intros ms. destruct (new_object [("data", JStr "Genesis Block")]) as [block Hnew].
  fold genesis_data in Hnew.
  exists block, (set_hash (Some (SHA256 (JSON_stringify_Block (set_time (_getCurrentTimeStamp ms)
                  (set_height 0 block))))) (set_time (_getCurrentTimeStamp ms)
                  (set_height 0 block))).
  split; [assumption|]. split; [reflexivity|].
  unfold new_Blockchain, initializeChain. simpl (height constructed =? -1).
  cbv iota. rewrite Hnew. reflexivity.
Qed.

Lemma consistent_placed : forall self block ms sealed,
  hash block = None ->
  _addBlock_seal self block ms = Normal sealed ->
  consistent (chain self) ->
  consistent (chain self ++ [sealed]).
Proof.
  intros self block ms sealed Hnull Hseal Hc.
  apply (validateChain_nil {| chain := chain self ++ [sealed]; height := 0 |}).
  rewrite validateChain_placed, (sealed_findings _ _ _ _ Hnull Hseal), app_nil_r.
  rewrite <- validateChain_findings. now apply validateChain_nil.
Qed.

Lemma sound_new : forall ms, sound (new_Blockchain ms) 0.
Proof.
  intros ms. destruct (new_Blockchain_genesis ms) as (block & sealed & Hnew & Hseal & ->).
  destruct (new_unsealed _ _ Hnew) as (Hnull & _ & _).
  pose proof (seal_fields _ _ _ _ Hseal) as (Hh & _).
  split; simpl; try reflexivity.
  - apply (consistent_placed constructed block ms sealed Hnull Hseal).
    intros [|i] b H; discriminate.
  - intros [|[|i]] b H; simpl in H; try discriminate.
    injection H as <-. exact Hh.
Qed.

Lemma sound_placed : forall self n block ms sealed,
  sound self n ->
  hash block = None ->
  _addBlock_seal self block ms = Normal sealed ->
  sound {| chain := chain self ++ [sealed]; height := height self + 1 |} (S n).
Proof.
  intros self n block ms sealed [Hh Hl Hc Hi] Hnull Hseal.
  split; simpl.
  - lia.
  - rewrite length_app; simpl; lia.
  - eapply consistent_placed; eauto.
  - intros i b H.
    destruct (Nat.lt_ge_cases i (List.length (chain self))) as [Hlt|Hge].
    + rewrite nth_error_app1 in H by assumption. now apply Hi.
    + rewrite nth_error_app2 in H by assumption.
      destruct (i - List.length (chain self))%nat as [|k] eqn:Hk; simpl in H;
        [|destruct k; discriminate].
      injection H as <-.
      apply seal_fields in Hseal as (Hs & _). rewrite Hs. lia.
Qed.

Lemma appended_sound : forall self n, appended self n -> sound self n.
Proof.
  intros self n H; induction H as
    [ms | self n data block ms self' sealed _ IH Hnew Hadd
        | self n data block ms self' r _ IH Hnew Hadd].
  - apply sound_new.
  - apply addBlock_fulfilled in Hadd as (Hseal & _ & ->).
    apply new_unsealed in Hnew as (Hnull & _).
    eapply sound_placed; eauto.
  - apply addBlock_rejected in Hadd as ->. exact IH.
Qed.

Lemma sound_linked : forall self n, sound self n -> linked (chain self).
Proof.
  intros self n [_ _ Hc Hi] i b prev Hb Hprev.
  destruct (Hc _ _ Hb) as [_ Hlink]. unfold link_ok in Hlink.
  rewrite (Hi _ _ Hb) in Hlink. simpl previous in Hlink. rewrite Hprev in Hlink.
  replace (Z.of_nat (S i) >? 0) with true in Hlink
    by (symmetry; apply Z.gtb_lt; lia).
  now apply hash_equal_eq.
Qed.

(** In a chain of a run an append of a new block is never rejected. *)
Lemma sound_append_succeeds : forall self n data block ms,
  sound self n ->
  BlockClass.new data = Normal block ->
  exists sealed,
    _addBlock self block ms
    = ({| chain := chain self ++ [sealed]; height := height self + 1 |},
       Fulfilled sealed).
Proof.
  intros self n data block ms [Hh Hl Hc Hi] Hnew.
  destruct (_addBlock_seal self block ms) as [sealed|e] eqn:Hseal.
  - exists sealed. apply addBlock_clean; [assumption|]. now apply validateChain_nil.
  - apply seal_throws in Hseal as (_ & Hnil & _). rewrite Hnil in Hl. discriminate.
Qed.

(** ** Chains reached with blocks of any kind *)

Lemma Fulfilled_inj : forall (A : Type) (x y : A),
  @Fulfilled A x = Fulfilled y -> x = y.
Proof. intros A x y H. now injection H. Qed.

Lemma Some_inj : forall (A : Type) (x y : A), Some x = Some y -> x = y.
Proof. intros A x y H. now injection H. Qed.

Lemma nth_error_snoc : forall (A : Type) (l : list A) (x b : A) (i : nat),
  nth_error (l ++ [x]) i = Some b ->
  ((i < List.length l)%nat /\ nth_error l i = Some b)
  \/ (i = List.length l /\ b = x).
Proof.
  intros A l x b i H.
  destruct (Nat.lt_ge_cases i (List.length l)) as [Hlt|Hge].
  - left. split; [assumption|]. now rewrite nth_error_app1 in H.
  - right. rewrite nth_error_app2 in H by assumption.
    destruct (i - List.length l)%nat as [|k] eqn:Hk; simpl in H;
      [|destruct k; discriminate].
    injection H as <-. split; [lia | reflexivity].
Qed.

Lemma link_ok_app : forall arr x idx b,
  (idx <= List.length arr)%nat -> link_ok (arr ++ [x]) idx b = link_ok arr idx b.
Proof.
  intros arr x idx b H. unfold link_ok. now rewrite previous_app.
Qed.

(** Heights that are the positions, and links that hold where the height
    is positive, give the linkage of the data model. *)
Lemma links_linked : forall arr,
  (forall i b, nth_error arr i = Some b -> BlockClass.height b = Z.of_nat i) ->
  (forall i b, nth_error arr i = Some b -> link_ok arr i b = true) ->
  linked arr.
Proof.
  intros arr Hi Hlinks i b prev Hb Hprev.
  pose proof (Hlinks _ _ Hb) as Hlink. unfold link_ok in Hlink.
  rewrite (Hi _ _ Hb) in Hlink. simpl previous in Hlink. rewrite Hprev in Hlink.
  replace (Z.of_nat (S i) >? 0) with true in Hlink
    by (symmetry; apply Z.gtb_lt; lia).
  now apply hash_equal_eq.
Qed.

(** What holds of every chain that is reached: the height counts the
    appends, the heights of the blocks are their positions, every link
    holds, and every block except the last one has the hash of its own
    text; the last one has it too when it was handed over unsealed. *)
Lemma reached_invariant : forall self passed,
  reached self passed ->
  height self = Z.of_nat (List.length passed)
  /\ List.length (chain self) = S (List.length passed)
  /\ (forall i b, nth_error (chain self) i = Some b ->
        BlockClass.height b = Z.of_nat i)
  /\ (forall i b, nth_error (chain self) i = Some b ->
        link_ok (chain self) i b = true)
  /\ (forall i b, nth_error (chain self) i = Some b ->
        (i < List.length passed)%nat -> self_hash_ok b = true)
  /\ (Forall (fun block => hash block = None) passed -> consistent (chain self)).
Proof.
  intros self passed H; induction H as
    [ms | self passed block ms self' sealed _ IH Hadd].
  - destruct (sound_new ms) as [Hh Hl Hc Hi].
    split; [exact Hh|]. split; [exact Hl|]. split; [exact Hi|].
    split; [intros i b Hb; now destruct (Hc _ _ Hb)|].
    split; [intros i b _ Hlt; simpl in Hlt; lia|].
    intros _. exact Hc.
  - destruct IH as (Hh & Hl & Hi & _ & _ & _).
    apply addBlock_fulfilled in Hadd as (Hseal & Hval & ->).
    apply validateChain_nil in Hval.
    pose proof (seal_fields _ _ _ _ Hseal) as (Hs & _).
    cbn [chain height]. rewrite !length_app. cbn [List.length].
    split; [lia|]. split; [lia|]. split; [|split; [|split]].
    + intros i b Hb.
      apply nth_error_snoc in Hb as [[_ Hb]|[-> ->]]; [now apply Hi|].
      rewrite Hs. lia.
    + intros i b Hb.
      apply nth_error_snoc in Hb as [[Hlt Hb]|[-> ->]].
      * rewrite link_ok_app by lia. now destruct (Hval _ _ Hb).
      * eapply sealed_link; eauto.
    + intros i b Hb Hlt.
      apply nth_error_snoc in Hb as [[_ Hb]|[-> _]]; [|lia].
      now destruct (Hval _ _ Hb).
    + intros Hall. apply Forall_app in Hall as [_ Hlast].
      apply Forall_cons_iff in Hlast as [Hnull _].
      eapply consistent_placed; eauto.
Qed.

(** A chain of a run is reached with blocks that were handed over
    unsealed: the calls that were rejected left it as it was. *)
Lemma appended_reached : forall self n,
  appended self n ->
  exists passed,
    reached self passed
    /\ List.length passed = n
    /\ Forall (fun block => hash block = None) passed.
Proof.
  intros self n H; induction H as
    [ms | self n data block ms self' sealed _ IH Hnew Hadd
        | self n data block ms self' r _ IH Hnew Hadd].
  - exists []. split; [apply reached_new|]. split; [reflexivity | constructor].
  - destruct IH as (passed & Hr & Hlen & Hall).
    exists (passed ++ [block]). split; [eapply reached_ok; eauto|].
    split; [rewrite length_app; simpl; lia|].
    apply Forall_app. split; [assumption|].
    constructor; [|constructor]. now apply new_unsealed in Hnew.
  - apply addBlock_rejected in Hadd as ->. exact IH.
Qed.

(** ** Lookups *)

Lemma filter_first : forall (A : Type) (f : A -> bool) (l : list A),
  nth_error (filter f l) 0 = find f l.
Proof.
  intros A f l; induction l as [|x l IH]; simpl; [reflexivity|].
  destruct (f x); [reflexivity | exact IH].
Qed.

Lemma find_the_one : forall (A : Type) (f : A -> bool) (l : list A) (x : A),
  In x l -> f x = true ->
  (forall y, In y l -> f y = true -> y = x) ->
  find f l = Some x.
Proof.
  intros A f l x Hin Hf Huniq.
  destruct (find f l) as [y|] eqn:E.
  - apply find_some in E as [Hy Hfy]. f_equal. now apply Huniq.
  - rewrite (find_none _ _ E _ Hin) in Hf. discriminate.
Qed.

Lemma find_absent : forall (A : Type) (f : A -> bool) (l : list A),
  (forall y, In y l -> f y = false) -> find f l = None.
Proof.
  intros A f l H; induction l as [|x l IH]; simpl; [reflexivity|].
  rewrite (H x) by now left. apply IH. intros y Hy. apply H. now right.
Qed.

Lemma NoDup_map_eq : forall (A B : Type) (f : A -> B) (l : list A) (x y : A),
  NoDup (map f l) -> In x l -> In y l -> f x = f y -> x = y.
Proof.
  intros A B f l x y; induction l as [|a l IH]; simpl; intros Hnd Hx Hy Hf;
    [contradiction|].
  inversion Hnd as [|? ? Hnotin Hnd']; subst.
  destruct Hx as [->|Hx], Hy as [->|Hy]; try reflexivity.
  - exfalso; apply Hnotin. rewrite Hf. now apply in_map.
  - exfalso; apply Hnotin. rewrite <- Hf. now apply in_map.
  - now apply IH.
Qed.

Lemma getBlockByHeight_find : forall self n,
  getBlockByHeight self n
  = Fulfilled (find (fun p => BlockClass.height p =? n) (chain self)).
Proof.
  intros self n. unfold getBlockByHeight. rewrite filter_first.
  destruct (find _ _); reflexivity.
Qed.

Lemma getBlockByHash_find : forall self h,
  getBlockByHash self h
  = Fulfilled (find (fun block => hash_equal (hash block) (Some h)) (chain self)).
Proof.
  intros self h. unfold getBlockByHash. now rewrite filter_first.
Qed.

Lemma sound_heights_distinct : forall self n x y,
  sound self n -> In x (chain self) -> In y (chain self) ->
  BlockClass.height x = BlockClass.height y -> x = y.
Proof.
  intros self n x y [_ _ _ Hi] Hx Hy Heq.
  apply In_nth_error in Hx as [i Hx]. apply In_nth_error in Hy as [j Hy].
  rewrite (Hi _ _ Hx), (Hi _ _ Hy) in Heq.
  apply Nat2Z.inj in Heq. subst j. congruence.
Qed.

Lemma consistent_hash : forall arr b,
  consistent arr -> In b arr ->
  hash b = Some (SHA256 (JSON_stringify_Block (set_hash None b))).
Proof.
  intros arr b Hc Hin. apply In_nth_error in Hin as [i Hi].
  destruct (Hc _ _ Hi) as [Hs _]. now apply hash_equal_eq.
Qed.

(** ** The claims *)

(** C1 (amended).  Every block passed to [_addBlock] is first sealed: its
    height is the height of the chain plus one, its
    [previousBlockHash] is the hash of the last block when that height is
    positive, its time is the current timestamp, and its hash is the digest
    of the block written with the hash field as it was passed in; then the
    validation is run over the chain as it stands, without the new block;
    when it reports no error the block is placed at the end, the height is
    incremented and the block is returned; when it reports errors nothing is
    placed and the call is rejected with the whole list.  For a block whose
    hash is [null] when passed, as [new Block] leaves it, this is the result
    of placing the block first and validating the chain that includes
    it.  (With a positive new height and an empty chain there is no last
    block and the call is rejected with a [TypeError].) *)
Theorem addBlock_validates_before_placing : forall self block ms,
  (height self + 1 > 0 /\ chain self = [] ->
     _addBlock self block ms = (self, Rejected (Thrown TypeError)))
  /\ (height self + 1 <= 0 \/ chain self <> [] ->
      exists sealed errors,
        BlockClass.height sealed = height self + 1
        /\ (height self + 1 > 0 ->
            exists b, nth_error (chain self) (List.length (chain self) - 1) = Some b
                      /\ previousBlockHash sealed = hash b)
        /\ time sealed = _getCurrentTimeStamp ms
        /\ body sealed = body block
        /\ hash sealed = Some (SHA256 (JSON_stringify_Block (set_hash (hash block) sealed)))
        /\ validateChain self = Fulfilled errors
        /\ (errors = [] ->
            _addBlock self block ms
            = ({| chain := chain self ++ [sealed]; height := height self + 1 |},
               Fulfilled sealed))
        /\ (errors <> [] ->
            _addBlock self block ms = (self, Rejected (ErrorLog errors))))
  /\ (hash block = None ->
      _addBlock self block ms = append_placing_first self block ms).
Proof.
  intros self block ms. split; [|split].
  - intros [Hpos Hnil]. unfold _addBlock, _addBlock_seal.
    replace (height self + 1 >? 0) with true by (symmetry; apply Z.gtb_lt; lia).
    rewrite Hnil. reflexivity.
  - intros Hok.
    destruct (_addBlock_seal self block ms) as [sealed|e] eqn:Hseal.
    + exists sealed, (findings_from (chain self) 0 (chain self)).
      pose proof (seal_fields _ _ _ _ Hseal) as (Hh & Hb & Ht & Hp & _ & Hd).
      repeat (split; [assumption|]).
      split; [apply validateChain_findings|]. split.
      * intros Hnil. apply addBlock_clean; [assumption|].
        rewrite validateChain_findings. now rewrite Hnil.
      * intros Hne. eapply addBlock_errors; eauto. apply validateChain_findings.
    + apply seal_throws in Hseal as (Hpos & Hnil & _).
      destruct Hok as [Hle|Hne]; [lia | contradiction].
  - apply addBlock_unsealed_matches.
Qed.

(** C1, as stated, fails.  A block is handed over with its hash field set.
    [_addBlock] hashes it with that field in place and validates the chain
    before the block is in it: the call is fulfilled, and the chain it
    leaves holds a block that fails its own validation.  Placing first and
    validating the chain with the block in it gives another result. *)
Lemma addBlock_keeps_block_that_fails_validation :
  _addBlock fresh presealed 1600000100500
  <> append_placing_first fresh presealed 1600000100500
  /\ exists after b,
       _addBlock fresh presealed 1600000100500 = (after, Fulfilled b)
       /\ validate b = Fulfilled false
       /\ validateChain after = Fulfilled [validation_failed].
Proof.
  split.
  - intro H.
    apply (f_equal (fun r => match snd r with
                             | Fulfilled b => hash b
                             | _ => None
                             end)) in H.
    revert H. vm_compute. discriminate.
  - eexists. eexists. split; [vm_compute; reflexivity|].
    split; vm_compute; reflexivity.
Qed.

(** C5 (amended).  [validateChain] changes nothing, it only reads the
    chain, and the list it gives holds, for each block in the order of the
    sequence, a record with the message of a failed validation when the
    self-hash check of the block is false, then a record with the message of
    a hash mismatch when the height of the block is positive and its
    [previousBlockHash] differs from the hash of the block before it.  The
    records hold the message alone: no height is recorded.  The list is
    empty exactly when the chain has no such violation. *)
Theorem validateChain_lists_findings : forall self,
  validateChain self = Fulfilled (findings_from (chain self) 0 (chain self))
  /\ (validateChain self = Fulfilled [] <->
      forall idx b, nth_error (chain self) idx = Some b ->
        validate b = Fulfilled true
        /\ (BlockClass.height b > 0 ->
            forall prev, previous (chain self) idx = Some prev ->
                         previousBlockHash b = hash prev))
  /\ (forall errors r, validateChain self = Fulfilled errors -> In r errors ->
        r = validation_failed \/ r = hash_mismatch).
Proof.
  intros self. split; [apply validateChain_findings|]. split.
  - rewrite validateChain_nil. unfold consistent.
    split; intros H idx b Hb; destruct (H idx b Hb) as [Hs Hl].
    + split; [rewrite validate_self_hash; now rewrite Hs|].
      intros Hpos prev Hprev. unfold link_ok in Hl.
      replace (BlockClass.height b >? 0) with true in Hl
        by (symmetry; apply Z.gtb_lt; lia).
      rewrite Hprev in Hl. now apply hash_equal_eq.
    + rewrite validate_self_hash in Hs. injection Hs as Hs. split; [assumption|].
      unfold link_ok. destruct (BlockClass.height b >? 0) eqn:Hpos; [|reflexivity].
      apply Z.gtb_lt in Hpos.
      destruct (previous (chain self) idx) as [prev|] eqn:Hprev; [|reflexivity].
      apply hash_equal_eq. apply Hl; [lia | reflexivity].
  - intros errors r. rewrite validateChain_findings. intro H; injection H as <-.
    apply findings_from_messages.
Qed.

(** C5, as stated, fails: the records have the one field [error].  In a
    chain of two blocks that were never sealed both blocks fail their
    self-hash check, at heights 0 and 1, and the list holds the same record
    twice: no reading of a block height off a record gives each of the two
    blocks a record at its own height. *)
Lemma validateChain_records_hold_no_height :
  validateChain never_sealed = Fulfilled [validation_failed; validation_failed]
  /\ ~ exists blockHeight : ErrorRecord -> Z,
         forall errors, validateChain never_sealed = Fulfilled errors ->
           forall b, In b (chain never_sealed) -> validate b = Fulfilled false ->
             exists r, In r errors /\ blockHeight r = BlockClass.height b.
Proof.
  assert (E : validateChain never_sealed
              = Fulfilled [validation_failed; validation_failed])
    by (vm_compute; reflexivity).
  split; [exact E|].
  intros [blockHeight H]. specialize (H _ E).
  destruct (H (set_height 0 (block_of genesis_data))) as [r0 [Hin0 Hh0]];
    [now left | vm_compute; reflexivity |].
  destruct (H (set_height 1 (block_of (JObj [("star", star_of_A);
                                             ("owner", JStr "addrA")]))))
    as [r1 [Hin1 Hh1]]; [right; now left | vm_compute; reflexivity |].
  simpl in Hh0, Hh1.
  assert (r0 = validation_failed) by (destruct Hin0 as [<-|[<-|[]]]; reflexivity).
  assert (r1 = validation_failed) by (destruct Hin1 as [<-|[<-|[]]]; reflexivity).
  subst r0 r1. rewrite Hh0 in Hh1. discriminate.
Qed.

(** C7.  Once the call of [initializeChain] made by the constructor has
    completed, the chain holds exactly one block; its height is 0, its
    [previousBlockHash] is [null] and its [validate()] is resolved with
    [true]. *)
Theorem new_Blockchain_holds_genesis : forall ms,
  exists genesis,
    chain (new_Blockchain ms) = [genesis]
    /\ BlockClass.height genesis = 0
    /\ previousBlockHash genesis = None
    /\ validate genesis = Fulfilled true
    /\ getChainHeight (new_Blockchain ms) = Fulfilled 0.
Proof.
  intros ms. destruct (new_Blockchain_genesis ms) as (block & sealed & Hnew & Hseal & ->).
  destruct (new_unsealed _ _ Hnew) as (Hnull & _ & Hprev).
  pose proof (seal_fields _ _ _ _ Hseal) as (Hh & _ & _ & _ & Hp & _).
  exists sealed. repeat split.
  - exact Hh.
  - rewrite Hp by (simpl; lia). exact Hprev.
  - rewrite validate_self_hash. f_equal. eapply sealed_self_hash; eauto.
Qed.

(** C8.  While a call of [_addBlock] is in progress the object is seen
    either as it was before the call or as it is after it: the block is
    placed and the height is incremented in one step, or not at all.  When
    the call is rejected the object is left as it was: no block is added and
    the height is not incremented. *)
Theorem rejected_append_changes_nothing : forall self block ms r,
  snd (_addBlock self block ms) = Rejected r ->
  fst (_addBlock self block ms) = self
  /\ chain (fst (_addBlock self block ms)) = chain self
  /\ getChainHeight (fst (_addBlock self block ms)) = getChainHeight self
  /\ Forall (fun seen => seen = self) (_addBlock_observable self block ms).
Proof.
  intros self block ms r Hrej.
  destruct (_addBlock self block ms) as [after outcome] eqn:Hadd. simpl in Hrej.
  subst outcome. pose proof (addBlock_rejected _ _ _ _ _ Hadd) as ->. simpl.
  repeat split. unfold _addBlock_observable. unfold _addBlock in Hadd.
  destruct (_addBlock_seal self block ms) as [sealed|e].
  - rewrite Hadd. simpl. repeat constructor.
  - repeat constructor.
Qed.

(** Every call, rejected or not: what can be seen is the state before or
    the state after. *)
Lemma addBlock_observable_before_or_after : forall self block ms,
  Forall (fun seen => seen = self \/ seen = fst (_addBlock self block ms))
         (_addBlock_observable self block ms).
Proof.
  intros self block ms. unfold _addBlock_observable, _addBlock.
  destruct (_addBlock_seal self block ms) as [sealed|e]; simpl;
    repeat (apply Forall_cons; [auto|]); apply Forall_nil.
Qed.

(** C6 (amended).  After [n] successful appends to a new chain, of
    blocks that were handed over with their hash field [null], as
    [new Block] leaves it, the height is [n], the chain holds [n + 1]
    blocks, [validateChain] gives the empty list, every block after the
    first carries the hash of the block before it, and every block passes
    its own validation.  Whatever the blocks hold when they are handed over,
    the height is [n], the links hold, and every block except the last
    one passes its own validation. *)
Theorem appends_of_unsealed_blocks_leave_valid_chain : forall self passed,
  reached self passed ->
  (getChainHeight self = Fulfilled (Z.of_nat (List.length passed))
   /\ List.length (chain self) = S (List.length passed)
   /\ linked (chain self)
   /\ (forall i b, (i < List.length passed)%nat ->
         nth_error (chain self) i = Some b -> validate b = Fulfilled true))
  /\ (Forall (fun block => hash block = None) passed ->
      validateChain self = Fulfilled []
      /\ (forall b, In b (chain self) -> validate b = Fulfilled true)).
Proof.
  intros self passed H.
  apply reached_invariant in H as (Hh & Hl & Hi & Hlinks & Hself & Hc).
  split.
  - unfold getChainHeight. rewrite Hh.
    split; [reflexivity|]. split; [exact Hl|].
    split; [now apply links_linked|].
    intros i b Hlt Hb. rewrite validate_self_hash. f_equal. now apply (Hself i).
  - intros Hall. specialize (Hc Hall).
    split; [now apply validateChain_nil|].
    intros b Hin. apply In_nth_error in Hin as [i Hb].
    rewrite validate_self_hash. f_equal. now destruct (Hc _ _ Hb).
Qed.

(** C6, as stated, fails.  One append to a new chain, of a block that is
    handed over with its hash field set, is fulfilled: the height is 1 and
    the block carries the hash of the genesis block, but the block fails its
    own validation and [validateChain] reports it. *)
Lemma append_of_presealed_block_leaves_invalid_chain :
  exists after sealed,
    _addBlock fresh presealed 1600000100500 = (after, Fulfilled sealed)
    /\ reached after [presealed]
    /\ getChainHeight after = Fulfilled 1
    /\ In sealed (chain after)
    /\ validate sealed = Fulfilled false
    /\ validateChain after = Fulfilled [validation_failed].
Proof.
  assert (Hval : validateChain fresh = Fulfilled []).
  { apply validateChain_nil. exact (sound_consistent _ _ (sound_new _)). }
  destruct (_addBlock_seal fresh presealed 1600000100500) as [sealed|e] eqn:Hseal.
  - pose proof (addBlock_clean _ _ _ _ Hseal Hval) as Hadd.
    exists {| chain := chain fresh ++ [sealed]; height := height fresh + 1 |}, sealed.
    split; [exact Hadd|]. split.
    + exact (reached_ok fresh [] presealed 1600000100500 _ sealed
               (reached_new _) Hadd).
    + split; [unfold getChainHeight, fresh; cbn [height];
              now rewrite (sound_height _ _ (sound_new _))|].
      split; [cbn [chain]; apply in_or_app; right; now left|].
      assert (Hself : self_hash_ok sealed = false).
      { assert (Hs : match _addBlock_seal fresh presealed 1600000100500 with
                     | Normal b => self_hash_ok b
                     | Throw _ => false
                     end = false) by (vm_compute; reflexivity).
        now rewrite Hseal in Hs. }
      split; [rewrite validate_self_hash; now rewrite Hself|].
      rewrite validateChain_placed.
      rewrite validateChain_findings in Hval. apply Fulfilled_inj in Hval.
      rewrite Hval. cbn [app]. unfold findings.
      rewrite Hself, (sealed_link _ _ _ _ Hseal). reflexivity.
  - apply seal_throws in Hseal as (_ & Hnil & _).
    pose proof (sound_length _ _ (sound_new 1600000000123)) as Hl.
    unfold fresh in Hnil. rewrite Hnil in Hl. discriminate.
Qed.

(** C9.  In a chain of a run whose blocks have pairwise distinct hashes,
    [getBlockByHeight] at the height of a block of the chain and
    [getBlockByHash] at its hash are both resolved with that block; at a
    height or a hash that no block of the chain has, both are resolved with
    no block. *)
Theorem lookups_find_committed_blocks : forall self n,
  appended self n ->
  NoDup (map hash (chain self)) ->
  (forall b, In b (chain self) ->
     getBlockByHeight self (BlockClass.height b) = Fulfilled (Some b)
     /\ exists h, hash b = Some h /\ getBlockByHash self h = Fulfilled (Some b))
  /\ (forall k, (forall b, In b (chain self) -> BlockClass.height b <> k) ->
        getBlockByHeight self k = Fulfilled None)
  /\ (forall h, (forall b, In b (chain self) -> hash b <> Some h) ->
        getBlockByHash self h = Fulfilled None).
Proof.
  intros self n Happ Hnd. apply appended_sound in Happ.
  split; [|split].
  - intros b Hin. split.
    + rewrite getBlockByHeight_find. f_equal.
      apply find_the_one; [assumption | apply Z.eqb_refl |].
      intros y Hy Hf. apply Z.eqb_eq in Hf.
      eapply sound_heights_distinct; eauto.
    + pose proof (consistent_hash _ _ (sound_consistent _ _ Happ) Hin) as Hh.
      eexists. split; [exact Hh|].
      rewrite getBlockByHash_find. f_equal.
      apply find_the_one; [assumption | rewrite Hh; apply hash_equal_refl |].
      intros y Hy Hf. apply hash_equal_eq in Hf.
      apply (NoDup_map_eq _ _ hash (chain self)); try assumption. congruence.
  - intros k Hk. rewrite getBlockByHeight_find. f_equal. apply find_absent.
    intros y Hy. apply Z.eqb_neq. now apply Hk.
  - intros h Hh. rewrite getBlockByHash_find. f_equal. apply find_absent.
    intros y Hy. destruct (hash_equal (hash y) (Some h)) eqn:E; [|reflexivity].
    apply hash_equal_eq in E. now apply Hh in E.
Qed.

(** C10.  For a block of height 0 the promise of [getBData] is resolved
    with the text 'Genesis Block!' whatever the body holds: the promise is
    resolved before the body is decoded, and neither an exception of the
    decoding nor the later [resolve] or [reject] changes it. *)
Theorem getBData_genesis : forall hex2ascii JSON_parse self,
  BlockClass.height self = 0 ->
  getBData hex2ascii JSON_parse self = Fulfilled (JStr "Genesis Block!").
Proof.
  intros hex2ascii JSON_parse self Hzero. unfold getBData. rewrite Hzero. simpl.
  destruct (JSON_parse (hex2ascii (body self))) as [data|e]; [|reflexivity].
  destruct (truthy data); reflexivity.
Qed.

(** ** submitStar *)

Lemma submitStar_in_window : forall self address message signature star ms ms',
  Number_leb (Number_sub (_getCurrentTimeStamp ms) (timeFromMessage message))
             (Num 300) = true ->
  exists k,
    submitStar_steps self address message signature star ms ms'
    = Verify message address signature k
    /\ k (Normal false) = (self, Pending)
    /\ (forall e, k (Throw e) = (self, Pending))
    /\ (exists newBlock,
          BlockClass.new (JObj [("star", star); ("owner", JStr address)])
          = Normal newBlock
          /\ k (Normal true) = _addBlock self newBlock ms').
Proof.
  intros self address message signature star ms ms' Hin.
  unfold submitStar_steps. change (5 * 60) with 300. rewrite Hin.
  eexists. split; [reflexivity|]. cbv beta. split; [reflexivity|].
  split; [reflexivity|].
  destruct (new_object [("star", star); ("owner", JStr address)]) as [b Hb].
  exists b. split; [assumption|]. now rewrite Hb.
Qed.

Lemma submitStar_out_of_window : forall self address message signature star ms ms',
  Number_leb (Number_sub (_getCurrentTimeStamp ms) (timeFromMessage message))
             (Num 300) = false ->
  submitStar_steps self address message signature star ms ms' = Done (self, expired).
Proof.
  intros self address message signature star ms ms' Hout.
  unfold submitStar_steps. change (5 * 60) with 300. now rewrite Hout.
Qed.

(** A message whose second field holds no number is turned down as
    expired: the difference is [NaN], and [NaN <= 300] is false. *)
Lemma submitStar_no_timestamp : forall verify self address message signature star ms ms',
  timeFromMessage message = NaN ->
  submitStar verify self address message signature star ms ms' = (self, expired).
Proof.
  intros verify self address message signature star ms ms' Hnan.
  unfold submitStar. rewrite submitStar_out_of_window; [reflexivity|].
  rewrite Hnan. destruct (_getCurrentTimeStamp ms); reflexivity.
Qed.

Lemma submitStar_unverified : forall verify self address message signature star ms ms',
  Number_leb (Number_sub (_getCurrentTimeStamp ms) (timeFromMessage message))
             (Num 300) = true ->
  verify message address signature = Normal false ->
  submitStar verify self address message signature star ms ms' = (self, Pending).
Proof.
  intros verify self address message signature star ms ms' Hin Hno.
  destruct (submitStar_in_window self address message signature star ms ms' Hin)
    as (k & Hk & Hfalse & _).
  unfold submitStar. rewrite Hk. simpl. now rewrite Hno.
Qed.

(** A call of [submitStar] keeps the chain among the chains of a run. *)
Lemma submitStar_appended : forall verify self n address message signature star ms ms',
  appended self n ->
  appended (fst (submitStar verify self address message signature star ms ms')) n
  \/ appended (fst (submitStar verify self address message signature star ms ms')) (S n).
Proof.
  intros verify self n address message signature star ms ms' Happ.
  destruct (Number_leb (Number_sub (_getCurrentTimeStamp ms) (timeFromMessage message))
                       (Num 300)) eqn:Hwin.
  - destruct (submitStar_in_window self address message signature star ms ms' Hwin)
      as (k & Hk & Hfalse & Hthrow & newBlock & Hnew & Htrue).
    unfold submitStar. rewrite Hk. simpl.
    destruct (verify message address signature) as [[|]|e].
    + rewrite Htrue.
      destruct (sound_append_succeeds self n _ newBlock ms' (appended_sound _ _ Happ) Hnew)
        as [sealed Hadd].
      right. eapply appended_ok with (sealed := sealed); eauto.
      rewrite Hadd. reflexivity.
    + rewrite Hfalse. now left.
    + rewrite Hthrow. now left.
  - unfold submitStar. rewrite submitStar_out_of_window by assumption. now left.
Qed.


(** With a signature that is verified the same call appends the star. *)
Example submitStar_appends_star :
  fst (submitStar says_yes fresh "addrA" "addrA:1600000000:starRegistry"
                  "signature" star_of_A 1600000100000 1600000100500)
  = one_star.
Proof.
  destruct (submitStar_in_window fresh "addrA" "addrA:1600000000:starRegistry"
              "signature" star_of_A 1600000100000 1600000100500 eq_refl)
    as (k & Hk & _ & _ & newBlock & Hnew & Htrue).
  unfold submitStar. rewrite Hk. unfold answer, says_yes. rewrite Htrue.
  assert (E : newBlock = block_of (JObj [("star", star_of_A); ("owner", JStr "addrA")])).
  { unfold block_of. rewrite Hnew. reflexivity. }
  rewrite E. unfold one_star. reflexivity.
Qed.

(** C2: what the code does at the failing input.  The message is 100
    seconds old and [verify] answers [false]: the promise of [submitStar] is
    left pending (it is neither rejected nor resolved) and the chain and
    its height are as before. *)
Theorem submitStar_bad_signature_stays_pending :
  submitStar says_no fresh "addrA" "addrA:1600000000:starRegistry"
             "not the signature" star_of_A 1600000100000 1600000100500
  = (fresh, Pending).
Proof.
  apply submitStar_unverified; reflexivity.
Qed.

(** ** getStarsByWalletAddress *)

Lemma getStarsByWalletAddress_empty : forall hex2ascii JSON_parse self address,
  getStarsByWalletAddress hex2ascii JSON_parse self address = Fulfilled [].
Proof.
  intros hex2ascii JSON_parse self address. unfold getStarsByWalletAddress.
  induction (chain self) as [|b rest IH]; simpl; [reflexivity | exact IH].
Qed.

Lemma one_star_appended : appended one_star 1.
Proof.
  destruct (sound_append_succeeds fresh 0
              (JObj [("star", star_of_A); ("owner", JStr "addrA")])
              (block_of (JObj [("star", star_of_A); ("owner", JStr "addrA")]))
              1600000100500 (sound_new _) eq_refl) as [sealed Hadd].
  apply (appended_ok fresh 0
           (JObj [("star", star_of_A); ("owner", JStr "addrA")])
           (block_of (JObj [("star", star_of_A); ("owner", JStr "addrA")]))
           1600000100500 one_star sealed).
  - apply appended_new.
  - reflexivity.
  - unfold one_star. rewrite Hadd. reflexivity.
Defined.

Lemma one_star_reached :
  reached one_star [block_of (JObj [("star", star_of_A); ("owner", JStr "addrA")])].
Proof.
  destruct (sound_append_succeeds fresh 0
              (JObj [("star", star_of_A); ("owner", JStr "addrA")])
              (block_of (JObj [("star", star_of_A); ("owner", JStr "addrA")]))
              1600000100500 (sound_new _) eq_refl) as [sealed Hadd].
  apply (reached_ok fresh []
           (block_of (JObj [("star", star_of_A); ("owner", JStr "addrA")]))
           1600000100500 one_star sealed).
  - apply reached_new.
  - unfold one_star. rewrite Hadd. reflexivity.
Defined.

(** Where the decoding gives the payload of the star back, the lookup by
    owner of the specification finds the star of addrA, and the code does
    not. *)
Lemma getStarsByWalletAddress_differs : forall hex2ascii JSON_parse,
  (forall b, nth_error (chain one_star) 1 = Some b ->
     JSON_parse (hex2ascii (body b))
     = Normal (JObj [("star", star_of_A); ("owner", JStr "addrA")])) ->
  Spec.findByOwner hex2ascii JSON_parse one_star "addrA" = Fulfilled [star_of_A]
  /\ getStarsByWalletAddress hex2ascii JSON_parse one_star "addrA" = Fulfilled [].
Proof.
  intros hex2ascii JSON_parse Hdecode.
  split; [|apply getStarsByWalletAddress_empty].
  pose proof (appended_sound _ _ one_star_appended) as [_ Hl _ Hi].
  unfold Spec.findByOwner.
  destruct (chain one_star) as [|g [|b [|? ?]]]; try discriminate Hl.
  specialize (Hdecode b eq_refl). specialize (Hi 1%nat b eq_refl).
  simpl. unfold getBData. rewrite Hi, Hdecode. reflexivity.
Qed.

(** C4: what the code does at the failing input.  The chain holds the
    genesis block and one star of address addrA; whatever the decoding of
    the bodies gives, the promise of [getStarsByWalletAddress] for addrA is
    resolved with the empty array. *)
Theorem getStarsByWalletAddress_misses_star : forall hex2ascii JSON_parse,
  List.length (chain one_star) = 2%nat
  /\ getStarsByWalletAddress hex2ascii JSON_parse one_star "addrA" = Fulfilled [].
Proof.
  intros hex2ascii JSON_parse. split; [|apply getStarsByWalletAddress_empty].
  exact (sound_length _ _ (appended_sound _ _ one_star_appended)).
Qed.

(** ** The claims on sample data *)


(** C6 on the chain with one star. *)
Lemma appends_of_unsealed_blocks_witness :
  reached one_star [block_of (JObj [("star", star_of_A); ("owner", JStr "addrA")])]
  /\ getChainHeight one_star = Fulfilled 1
  /\ validateChain one_star = Fulfilled [].
Proof.
  split; [exact one_star_reached|].
  destruct (appends_of_unsealed_blocks_leave_valid_chain one_star _ one_star_reached)
    as ((Hh & _) & Hv).
  split; [exact Hh|].
  apply Hv. constructor; [reflexivity | constructor].
Defined.

(** C8 on the new chain whose genesis body was overwritten: the append of a
    new block is rejected with the finding about the genesis block. *)
Lemma rejected_append_witness :
  snd (_addBlock tampered (block_of star_of_A) 1600000100500)
  = Rejected (ErrorLog [validation_failed])
  /\ fst (_addBlock tampered (block_of star_of_A) 1600000100500) = tampered.
Proof.
  assert (H : snd (_addBlock tampered (block_of star_of_A) 1600000100500)
              = Rejected (ErrorLog [validation_failed]))
    by (vm_compute; reflexivity).
  split; [exact H|].
  exact (proj1 (rejected_append_changes_nothing tampered (block_of star_of_A)
                  1600000100500 _ H)).
Defined.

(** C9 on the chain with one star. *)
Lemma lookups_witness :
  appended one_star 1
  /\ NoDup (map hash (chain one_star))
  /\ forall b, In b (chain one_star) ->
       getBlockByHeight one_star (BlockClass.height b) = Fulfilled (Some b).
Proof.
  assert (Hnd : NoDup (map hash (chain one_star))).
  { vm_compute. constructor; [intros [H|[]]; discriminate H|].
    constructor; [intros []|constructor]. }
  split; [exact one_star_appended|]. split; [exact Hnd|].
  intros b Hin.
  exact (proj1 (proj1 (lookups_find_committed_blocks one_star 1
                         one_star_appended Hnd) b Hin)).
Defined.

(** C10 on a block of height 0 whose body cannot be decoded. *)
Lemma getBData_genesis_witness :
  BlockClass.height (set_height 0 presealed) = 0
  /\ getBData same_text not_json (set_height 0 presealed)
     = Fulfilled (JStr "Genesis Block!").
Proof.
  split; [reflexivity|].
  exact (getBData_genesis same_text not_json (set_height 0 presealed) eq_refl).
Defined.

(** * Further properties of the code *)

(** ** The clock *)

Lemma dec_short : forall n, 0 <= n < 1000 -> (List.length (dec n) <= 3)%nat.
Proof.
  intros n Hn.
  destruct (Z_lt_le_dec n 10) as [H1|H1]; [rewrite dec_small by lia; simpl; lia|].
  rewrite dec_step by lia. rewrite length_app. simpl.
  assert (Hq : 0 <= n / 10 < 100).
  { split; [apply Z.div_pos; lia | apply Z.div_lt_upper_bound; lia]. }
  destruct (Z_lt_le_dec (n / 10) 10) as [H2|H2]; [rewrite dec_small by lia; simpl; lia|].
  rewrite dec_step by lia. rewrite length_app. simpl.
  rewrite dec_small; [simpl; lia|].
  split; [apply Z.div_pos; lia | apply Z.div_lt_upper_bound; lia].
Qed.

Lemma substring_0_0 : forall s, substring 0 0 s = EmptyString.
Proof. intros [|c s]; reflexivity. Qed.

Lemma getCurrentTimeStamp_first_second : forall ms,
  0 <= ms < 1000 -> _getCurrentTimeStamp ms = NaN.
Proof.
  intros ms Hms. unfold _getCurrentTimeStamp, Z_toString.
  replace (ms <? 0) with false by (symmetry; apply Z.ltb_ge; lia).
  unfold slice_0_minus. rewrite digits_text_length.
  pose proof (dec_short ms Hms) as Hlen.
  replace (List.length (dec ms) - 3)%nat with 0%nat by lia.
  rewrite substring_0_0. reflexivity.
Qed.

(** X1.  [_getCurrentTimeStamp] gives the clock in whole seconds, the
    milliseconds cut off, for every clock from 1000 ms on; during the first
    second of 1970 the text left by [slice] is empty and the result is
    [NaN]. *)
Theorem clock_in_whole_seconds : forall ms,
  (1000 <= ms ->
     _getCurrentTimeStamp ms = Num (ms / 1000)
     /\ 1000 * (ms / 1000) <= ms < 1000 * (ms / 1000) + 1000)
  /\ (0 <= ms < 1000 -> _getCurrentTimeStamp ms = NaN).
Proof.
  intros ms. split.
  - intros Hms. split; [now apply getCurrentTimeStamp_seconds|].
    pose proof (Z.div_mod ms 1000 ltac:(lia)).
    pose proof (Z.mod_pos_bound ms 1000 ltac:(lia)). lia.
  - apply getCurrentTimeStamp_first_second.
Qed.

(** ** The message to sign *)

Lemma split_without_sep : forall sep s,
  contains sep s = false -> split sep s = [s].
Proof.
  intros sep s; induction s as [|c s IH]; simpl; [reflexivity|].
  destruct (Ascii.eqb c sep); simpl; [discriminate|].
  intros H. now rewrite (IH H).
Qed.

Lemma split_at_sep : forall sep a rest,
  contains sep a = false ->
  split sep (a +++ String sep rest) = a :: split sep rest.
Proof.
  intros sep a rest; induction a as [|c a IH]; simpl.
  - intros _. now rewrite Ascii.eqb_refl.
  - destruct (Ascii.eqb c sep); simpl; [discriminate|].
    intros H. now rewrite (IH H).
Qed.

Lemma contains_app : forall c s1 s2,
  contains c (s1 +++ s2) = contains c s1 || contains c s2.
Proof.
  intros c s1 s2; induction s1 as [|x s1 IH]; simpl; [reflexivity|].
  now rewrite IH, orb_assoc.
Qed.

Lemma digits_text_no_colon : forall ds,
  Forall is_digit ds -> contains ":" (digits_text ds) = false.
Proof.
  intros ds H; induction H as [|d ds Hd _ IH]; [reflexivity|].
  unfold digits_text in *. cbn [map string_of_list_ascii contains].
  rewrite IH, orb_false_r. unfold is_digit in Hd.
  assert (Hcases : d = 0 \/ d = 1 \/ d = 2 \/ d = 3 \/ d = 4 \/ d = 5 \/ d = 6
                   \/ d = 7 \/ d = 8 \/ d = 9) by lia.
  destruct Hcases as [->|[->|[->|[->|[->|[->|[->|[->|[->| ->]]]]]]]]];
    reflexivity.
Qed.

Lemma parseInt_Z_toString : forall n, 1 <= n -> parseInt (Z_toString n) = Num n.
Proof.
  intros n Hn. unfold Z_toString.
  replace (n <? 0) with false by (symmetry; apply Z.ltb_ge; lia).
  destruct (dec_spec n) as (Hd & Hv & Hhd); [lia|].
  destruct (Hhd Hn) as (d & rest & E & Hd1). rewrite E in *.
  apply Forall_cons_iff in Hd as [Hdd Hrest]. unfold is_digit in Hdd.
  rewrite parseInt_digits_text by (assumption || lia). now rewrite Hv.
Qed.

Lemma Z_toString_no_colon : forall n, 0 <= n -> contains ":" (Z_toString n) = false.
Proof.
  intros n Hn. unfold Z_toString.
  replace (n <? 0) with false by (symmetry; apply Z.ltb_ge; lia).
  apply digits_text_no_colon. now destruct (dec_spec n Hn).
Qed.

Lemma issued_message_fields : forall address ms,
  contains ":" address = false -> 1000 <= ms ->
  requestMessageOwnershipVerification address ms
  = Fulfilled (address +++ ":" +++ Z_toString (ms / 1000) +++ ":starRegistry")
  /\ split ":" (address +++ ":" +++ Z_toString (ms / 1000) +++ ":starRegistry")
     = [address; Z_toString (ms / 1000); "starRegistry"]
  /\ timeFromMessage (address +++ ":" +++ Z_toString (ms / 1000) +++ ":starRegistry")
     = Num (ms / 1000).
Proof.
  intros address ms Haddr Hms.
  assert (Hq : 1 <= ms / 1000) by (apply Z.div_le_lower_bound; lia).
  assert (Hsplit : split ":" (address +++ ":" +++ Z_toString (ms / 1000) +++ ":starRegistry")
                   = [address; Z_toString (ms / 1000); "starRegistry"]).
  { change (":" +++ Z_toString (ms / 1000) +++ ":starRegistry")
      with (String ":" (Z_toString (ms / 1000) +++ String ":" "starRegistry")).
    rewrite split_at_sep by assumption.
    rewrite split_at_sep by (apply Z_toString_no_colon; lia).
    reflexivity. }
  split; [|split].
  - unfold requestMessageOwnershipVerification.
    rewrite getCurrentTimeStamp_seconds by assumption. reflexivity.
  - exact Hsplit.
  - unfold timeFromMessage. rewrite Hsplit. cbn [nth_error].
    now apply parseInt_Z_toString.
Qed.

(** X2.  The message that [requestMessageOwnershipVerification] issues for
    an address without a colon has three fields, the address, the timestamp
    in seconds and the tag, and [submitStar] reads the timestamp of issue
    back from it. *)
Theorem issued_message_carries_timestamp : forall address ms,
  contains ":" address = false ->
  1000 <= ms ->
  exists message,
    requestMessageOwnershipVerification address ms = Fulfilled message
    /\ split ":" message = [address; Z_toString (ms / 1000); "starRegistry"]
    /\ timeFromMessage message = Num (ms / 1000).
Proof.
  intros address ms Haddr Hms.
  destruct (issued_message_fields address ms Haddr Hms) as (H1 & H2 & H3).
  eexists. split; [exact H1|]. split; assumption.
Qed.

Lemma issued_message_carries_timestamp_witness :
  contains ":" "addrA" = false
  /\ 1000 <= 1600000000123
  /\ exists message,
       requestMessageOwnershipVerification "addrA" 1600000000123 = Fulfilled message
       /\ split ":" message = ["addrA"; Z_toString (1600000000123 / 1000); "starRegistry"]
       /\ timeFromMessage message = Num (1600000000123 / 1000).
Proof.
  split; [reflexivity|]. split; [lia|].
  exact (issued_message_carries_timestamp "addrA" 1600000000123 eq_refl ltac:(lia)).
Defined.

(** ** What a call can do to the chain *)

Lemma addBlock_cases : forall self block ms,
  (exists r, _addBlock self block ms = (self, Rejected r))
  \/ (exists sealed,
        _addBlock_seal self block ms = Normal sealed
        /\ validateChain self = Fulfilled []
        /\ _addBlock self block ms
           = ({| chain := chain self ++ [sealed]; height := height self + 1 |},
              Fulfilled sealed)).
Proof.
  intros self block ms. unfold _addBlock.
  destruct (_addBlock_seal self block ms) as [sealed|e] eqn:Hseal.
  - rewrite validateChain_findings.
    destruct (findings_from (chain self) 0 (chain self)) as [|r errors] eqn:E.
    + right. exists sealed. repeat split; reflexivity.
    + left. eexists. reflexivity.
  - left. eexists. reflexivity.
Qed.

Lemma submitStar_cases : forall verify self address message signature star ms ms',
  submitStar verify self address message signature star ms ms' = (self, expired)
  \/ submitStar verify self address message signature star ms ms' = (self, Pending)
  \/ exists newBlock,
       BlockClass.new (JObj [("star", star); ("owner", JStr address)]) = Normal newBlock
       /\ submitStar verify self address message signature star ms ms'
          = _addBlock self newBlock ms'.
Proof.
  intros verify self address message signature star ms ms'.
  destruct (Number_leb (Number_sub (_getCurrentTimeStamp ms) (timeFromMessage message))
                       (Num 300)) eqn:Hwin.
  - destruct (submitStar_in_window self address message signature star ms ms' Hwin)
      as (k & Hk & Hfalse & Hthrow & newBlock & Hnew & Htrue).
    unfold submitStar. rewrite Hk. unfold answer.
    destruct (verify message address signature) as [[|]|e].
    + right. right. exists newBlock. split; assumption.
    + right. left. assumption.
    + right. left. apply Hthrow.
  - left. unfold submitStar. now rewrite submitStar_out_of_window.
Qed.

Lemma new_body : forall data block,
  BlockClass.new data = Normal block ->
  exists text, JSON_stringify data = Some text /\ body block = hex (bytes text).
Proof.
  intros data block. unfold BlockClass.new.
  destruct (JSON_stringify data) as [text|]; intro H; [|discriminate].
  injection H as <-. now exists text.
Qed.

(** X3.  A call of [submitStar], on any chain and with any arguments,
    either leaves the chain and the height as they are, and then its
    promise is not fulfilled, or puts exactly one block at the end of the
    chain, adds one to the height and fulfils its promise with that block,
    which stands at the new height.  It never removes, replaces or reorders
    a block.  For a star whose numbers are all [NaN] or safe integers the
    body of the block is the JSON text of [{star, owner}] in
    hexadecimal. *)
Theorem submitStar_appends_one_block_or_nothing :
  forall verify self address message signature star ms ms',
  (fst (submitStar verify self address message signature star ms ms') = self
   /\ forall b, snd (submitStar verify self address message signature star ms ms')
                <> Fulfilled b)
  \/ (exists b,
        submitStar verify self address message signature star ms ms'
        = ({| chain := chain self ++ [b]; height := height self + 1 |}, Fulfilled b)
        /\ BlockClass.height b = height self + 1
        /\ (exact_numbers star = true ->
            exists text,
              JSON_stringify (JObj [("star", star); ("owner", JStr address)])
              = Some text
              /\ body b = hex (bytes text))).
Proof.
  intros verify self address message signature star ms ms'.
  destruct (submitStar_cases verify self address message signature star ms ms')
    as [H|[H|(newBlock & Hnew & H)]]; rewrite H.
  - left. split; [reflexivity | discriminate].
  - left. split; [reflexivity | discriminate].
  - destruct (addBlock_cases self newBlock ms') as [[r Hr]|(sealed & Hseal & _ & Hadd)].
    + left. rewrite Hr. split; [reflexivity | discriminate].
    + right. destruct (new_body _ _ Hnew) as (text & Htext & Hbody).
      apply seal_fields in Hseal as (Hh & Hb & _).
      exists sealed. rewrite Hadd. split; [reflexivity|]. split; [exact Hh|].
      intros _. exists text. split; [exact Htext|]. now rewrite Hb.
Qed.

(** X3 on a star that holds numbers, submitted to the new chain with a
    message 100 seconds old. *)
Lemma submitStar_appends_one_block_or_nothing_witness :
  exact_numbers star_with_numbers = true
  /\ exists b text,
       snd (submitStar says_yes fresh "addrA" "addrA:1600000000:starRegistry"
                       "signature" star_with_numbers 1600000100000 1600000100500)
       = Fulfilled b
       /\ JSON_stringify (JObj [("star", star_with_numbers); ("owner", JStr "addrA")])
          = Some text
       /\ body b = hex (bytes text).
Proof.
  split; [reflexivity|].
  destruct (submitStar_appends_one_block_or_nothing says_yes fresh "addrA"
              "addrA:1600000000:starRegistry" "signature" star_with_numbers
              1600000100000 1600000100500)
    as [[_ Hnot]|(b & Hsub & _ & Hbody)].
  - exfalso.
    destruct (submitStar_in_window fresh "addrA" "addrA:1600000000:starRegistry"
                "signature" star_with_numbers 1600000100000 1600000100500 eq_refl)
      as (k & Hk & _ & _ & newBlock & Hnew & Htrue).
    destruct (sound_append_succeeds fresh 0 _ newBlock 1600000100500
                (sound_new _) Hnew) as [sealed Hadd].
    apply (Hnot sealed). unfold submitStar. rewrite Hk. unfold answer, says_yes.
    rewrite Htrue, Hadd. reflexivity.
  - destruct (Hbody eq_refl) as (text & Htext & Hb).
    exists b, text. rewrite Hsub. split; [reflexivity|]. split; assumption.
Defined.

(** X4.  The height field counts the blocks.  It is the length of the
    chain minus one in the object that the constructor returns, and
    [_addBlock], [submitStar] and [initializeChain] keep it so, whatever
    the blocks of the chain hold. *)
Theorem height_counts_blocks :
  counts_blocks constructed
  /\ forall self, counts_blocks self ->
       (forall block ms, counts_blocks (fst (_addBlock self block ms)))
       /\ (forall verify address message signature star ms ms',
             counts_blocks
               (fst (submitStar verify self address message signature star ms ms')))
       /\ (forall ms, counts_blocks (fst (initializeChain self ms))).
Proof.
  split; [reflexivity|]. intros self Hc.
  assert (Hadd : forall block ms, counts_blocks (fst (_addBlock self block ms))).
  { intros block ms.
    destruct (addBlock_cases self block ms) as [[r ->]|(sealed & _ & _ & ->)];
      [exact Hc|].
    unfold counts_blocks in *. simpl. rewrite length_app. simpl. lia. }
  split; [exact Hadd|]. split.
  - intros verify address message signature star ms ms'.
    destruct (submitStar_cases verify self address message signature star ms ms')
      as [->|[->|(newBlock & _ & ->)]]; [exact Hc | exact Hc | apply Hadd].
  - intros ms. unfold initializeChain.
    destruct (height self =? -1); [|exact Hc].
    destruct (BlockClass.new genesis_data) as [block|e]; [|exact Hc].
    specialize (Hadd block ms).
    destruct (_addBlock self block ms) as [self' [b|r|]]; exact Hadd.
Qed.

(** X5.  In a chain of a run an append of a block just built by
    [new Block] is never rejected: the promise is fulfilled with the sealed
    block, which is placed last, stands at the next height, carries the hash
    of the block that was last, and passes its own validation. *)
Theorem run_accepts_every_new_block : forall self n data block ms,
  appended self n ->
  BlockClass.new data = Normal block ->
  exists sealed prev,
    _addBlock self block ms
    = ({| chain := chain self ++ [sealed]; height := height self + 1 |},
       Fulfilled sealed)
    /\ BlockClass.height sealed = Z.of_nat (S n)
    /\ last_block self = Some prev
    /\ previousBlockHash sealed = hash prev
    /\ body sealed = body block
    /\ validate sealed = Fulfilled true.
Proof.
  intros self n data block ms Happ Hnew.
  pose proof (appended_sound _ _ Happ) as Hs.
  destruct (sound_append_succeeds self n data block ms Hs Hnew) as [sealed Hadd].
  pose proof (addBlock_fulfilled _ _ _ _ _ Hadd) as (Hseal & _ & _).
  pose proof (seal_fields _ _ _ _ Hseal) as (Hh & Hb & _ & Hp & _ & _).
  destruct Hs as [Hheight Hl Hc Hi].
  destruct Hp as (prev & Hprev & Hlink); [lia|].
  exists sealed, prev. split; [exact Hadd|]. split; [lia|].
  split; [exact Hprev|]. split; [exact Hlink|]. split; [exact Hb|].
  rewrite validate_self_hash. f_equal.
  apply new_unsealed in Hnew as (Hnull & _).
  eapply sealed_self_hash; eauto.
Qed.

Lemma run_accepts_every_new_block_witness :
  appended fresh 0
  /\ BlockClass.new payload_of_A = Normal (block_of payload_of_A)
  /\ exists sealed,
       snd (_addBlock fresh (block_of payload_of_A) 1600000100500) = Fulfilled sealed
       /\ BlockClass.height sealed = 1.
Proof.
  split; [apply appended_new|]. split; [reflexivity|].
  destruct (run_accepts_every_new_block fresh 0 payload_of_A (block_of payload_of_A)
              1600000100500 (appended_new _) eq_refl)
    as (sealed & prev & Hadd & Hh & _).
  exists sealed. rewrite Hadd. split; [reflexivity | exact Hh].
Defined.

(** X6.  [initializeChain] adds the genesis block once: called again on a
    chain of a run it changes nothing and its promise is fulfilled. *)
Theorem initializeChain_only_once : forall self n ms,
  appended self n ->
  initializeChain self ms = (self, Fulfilled tt).
Proof.
  intros self n ms Happ. apply appended_sound in Happ as [Hh _ _ _].
  unfold initializeChain.
  replace (height self =? -1) with false; [reflexivity|].
  symmetry. apply Z.eqb_neq. lia.
Qed.

Lemma initializeChain_only_once_witness :
  appended fresh 0
  /\ initializeChain fresh 1600000200000 = (fresh, Fulfilled tt).
Proof.
  split; [apply appended_new|].
  exact (initializeChain_only_once fresh 0 1600000200000 (appended_new _)).
Defined.

(** X7.  The caller of [_addBlock] chooses neither the height nor the time
    of the block: whatever these two fields hold on entry, the result is the
    same.  When the new height is positive the same goes for
    [previousBlockHash]. *)
Theorem addBlock_overwrites_height_time_and_link : forall self block ms,
  (forall k t,
     _addBlock self (set_time t (set_height k block)) ms = _addBlock self block ms)
  /\ (height self + 1 > 0 ->
      forall p,
        _addBlock self (set_previousBlockHash p block) ms = _addBlock self block ms).
Proof.
  intros self block ms. split.
  - intros k t. unfold _addBlock, _addBlock_seal.
    destruct (height self + 1 >? 0); [destruct (last_hash (chain self))|];
      reflexivity.
  - intros Hpos p. unfold _addBlock, _addBlock_seal.
    replace (height self + 1 >? 0) with true by (symmetry; apply Z.gtb_lt; lia).
    destruct (last_hash (chain self)); reflexivity.
Qed.

(** ** From the message to the block *)

(** X8.  The ownership flow from end to end, on a chain of a run and for
    an address without a colon.  A message issued at clock [ms] and
    submitted at clock [ms1] is inside the window exactly when the two
    clocks, cut to whole seconds, are at most 300 apart.  Inside the window
    and with a signature that [verify] accepts, the star is appended: the
    promise is fulfilled with a block at the next height whose time is the
    clock of the append and which passes its own validation, and the chain
    is again a chain of a run; for a star whose numbers are all [NaN] or
    safe integers the body of the block is the JSON text of [{star, owner}]
    in hexadecimal.  Outside the window the call is rejected whatever
    [verify] would answer. *)
Theorem issued_message_registers_star :
  forall verify self n address message signature star ms ms1 ms2,
  appended self n ->
  contains ":" address = false ->
  1000 <= ms ->
  1000 <= ms1 ->
  requestMessageOwnershipVerification address ms = Fulfilled message ->
  (ms1 / 1000 - ms / 1000 <= 300 ->
   verify message address signature = Normal true ->
   exists b,
     submitStar verify self address message signature star ms1 ms2
     = ({| chain := chain self ++ [b]; height := height self + 1 |}, Fulfilled b)
     /\ BlockClass.height b = Z.of_nat (S n)
     /\ time b = _getCurrentTimeStamp ms2
     /\ validate b = Fulfilled true
     /\ appended {| chain := chain self ++ [b]; height := height self + 1 |} (S n)
     /\ (exact_numbers star = true ->
         exists text,
           JSON_stringify (JObj [("star", star); ("owner", JStr address)])
           = Some text
           /\ body b = hex (bytes text)))
  /\ (ms1 / 1000 - ms / 1000 > 300 ->
      submitStar verify self address message signature star ms1 ms2
      = (self, Rejected (Message "Error: time passed 5 minutes."))).
Proof.
  intros verify self n address message signature star ms ms1 ms2
         Happ Haddr Hms Hms1 Hreq.
  destruct (issued_message_fields address ms Haddr Hms) as (Hissued & _ & Htime).
  assert (Hm : message = address +++ ":" +++ Z_toString (ms / 1000) +++ ":starRegistry")
    by (rewrite Hissued in Hreq; now injection Hreq).
  subst message.
  assert (Hdelta : Number_leb (Number_sub (_getCurrentTimeStamp ms1)
                     (timeFromMessage (address +++ ":" +++ Z_toString (ms / 1000)
                                               +++ ":starRegistry")))
                     (Num 300)
                   = (ms1 / 1000 - ms / 1000 <=? 300)).
  { rewrite Htime, getCurrentTimeStamp_seconds by assumption. reflexivity. }
  split.
  - intros Hin Hyes.
    rewrite (proj2 (Z.leb_le _ _) Hin) in Hdelta.
    destruct (submitStar_in_window self address _ signature star ms1 ms2 Hdelta)
      as (k & Hk & _ & _ & newBlock & Hnew & Htrue).
    destruct (sound_append_succeeds self n _ newBlock ms2 (appended_sound _ _ Happ) Hnew)
      as [sealed Hadd].
    destruct (new_body _ _ Hnew) as (text & Htext & Hbody).
    pose proof (addBlock_fulfilled _ _ _ _ _ Hadd) as (Hseal & _ & _).
    pose proof (seal_fields _ _ _ _ Hseal) as (Hh & Hb & Ht & _).
    pose proof (sound_height _ _ (appended_sound _ _ Happ)) as Hheight.
    exists sealed.
    split; [unfold submitStar; rewrite Hk; unfold answer; rewrite Hyes, Htrue;
            exact Hadd|].
    split; [lia|]. split; [exact Ht|]. split; [|split].
    + rewrite validate_self_hash. f_equal.
      destruct (new_unsealed _ _ Hnew) as (Hnull & _).
      eapply sealed_self_hash; eauto.
    + eapply appended_ok; eauto.
    + intros _. exists text. split; [exact Htext | now rewrite Hb].
  - intros Hout.
    assert (Hfalse : (ms1 / 1000 - ms / 1000 <=? 300) = false) by (apply Z.leb_gt; lia).
    rewrite Hfalse in Hdelta.
    unfold submitStar. rewrite submitStar_out_of_window by assumption. reflexivity.
Qed.

Lemma issued_message_registers_star_witness :
  appended fresh 0
  /\ requestMessageOwnershipVerification "addrA" 1600000000123
     = Fulfilled "addrA:1600000000:starRegistry"
  /\ exact_numbers star_with_numbers = true
  /\ exists b text,
       snd (submitStar says_yes fresh "addrA" "addrA:1600000000:starRegistry"
                       "signature" star_with_numbers 1600000100000 1600000100500)
       = Fulfilled b
       /\ BlockClass.height b = 1
       /\ JSON_stringify (JObj [("star", star_with_numbers); ("owner", JStr "addrA")])
          = Some text
       /\ body b = hex (bytes text).
Proof.
  split; [apply appended_new|]. split; [reflexivity|]. split; [reflexivity|].
  destruct (issued_message_registers_star says_yes fresh 0 "addrA"
              "addrA:1600000000:starRegistry" "signature" star_with_numbers
              1600000000123 1600000100000 1600000100500
              (appended_new _) eq_refl ltac:(lia) ltac:(lia) eq_refl)
    as [Hin _].
  destruct Hin as (b & Hsub & Hh & _ & _ & _ & Hbody);
    [vm_compute; discriminate | reflexivity |].
  destruct (Hbody eq_refl) as (text & Htext & Hb).
  exists b, text. rewrite Hsub. split; [reflexivity|]. split; [exact Hh|].
  split; assumption.
Defined.

(** X9.  A message without a colon has no second field: the timestamp
    read from it is [NaN], and [submitStar] rejects the call with the text of
    the expired window, on every chain, at every clock and whatever
    [verify] would answer. *)
Theorem message_without_fields_is_rejected :
  forall verify self address message signature star ms ms',
  contains ":" message = false ->
  timeFromMessage message = NaN
  /\ submitStar verify self address message signature star ms ms'
     = (self, Rejected (Message "Error: time passed 5 minutes.")).
Proof.
  intros verify self address message signature star ms ms' Hnone.
  assert (Hnan : timeFromMessage message = NaN).
  { unfold timeFromMessage. rewrite split_without_sep by assumption. reflexivity. }
  split; [exact Hnan|]. now apply submitStar_no_timestamp.
Qed.

Lemma message_without_fields_is_rejected_witness :
  contains ":" "sign me" = false
  /\ submitStar says_yes fresh "addrA" "sign me" "signature" star_of_A
                1600000100000 1600000100500
     = (fresh, Rejected (Message "Error: time passed 5 minutes.")).
Proof.
  split; [reflexivity|].
  exact (proj2 (message_without_fields_is_rejected says_yes fresh "addrA" "sign me"
                  "signature" star_of_A 1600000100000 1600000100500 eq_refl)).
Defined.

(** ** What is stored and what is read back *)

(** X10.  What [new Block] and [_addBlock] store, [getBData] reads back.
    For decoders that invert the encoding of the payload, and a chain that
    already has its genesis block (its height is not -1), the promise of
    [getBData] on the block that [_addBlock] resolved with is fulfilled
    with the payload when the payload is truthy, and rejected with
    'The block has no data.' when it is [null], [false], 0 or the empty
    text. *)
Theorem stored_payload_reads_back :
  forall hex2ascii JSON_parse self data block ms after sealed text,
  height self <> -1 ->
  BlockClass.new data = Normal block ->
  _addBlock self block ms = (after, Fulfilled sealed) ->
  JSON_stringify data = Some text ->
  JSON_parse (hex2ascii (hex (bytes text))) = Normal data ->
  getBData hex2ascii JSON_parse sealed
  = if truthy data then Fulfilled data
    else Rejected (Thrown (Error "The block has no data.")).
Proof.
  intros hex2ascii JSON_parse self data block ms after sealed text
         Hgen Hnew Hadd Htext Hdecode.
  apply addBlock_fulfilled in Hadd as (Hseal & _ & _).
  apply seal_fields in Hseal as (Hh & Hb & _).
  destruct (new_body _ _ Hnew) as (text' & Htext' & Hbody).
  rewrite Htext in Htext'. injection Htext' as <-.
  unfold getBData. rewrite Hb, Hbody, Hdecode.
  replace (BlockClass.height sealed =? 0) with false
    by (symmetry; apply Z.eqb_neq; lia).
  destruct (truthy data); reflexivity.
Qed.

Lemma stored_payload_reads_back_witness :
  height fresh <> -1
  /\ exists sealed,
       snd (_addBlock fresh (block_of payload_of_A) 1600000100500) = Fulfilled sealed
       /\ getBData same_text parse_as_payload_of_A sealed = Fulfilled payload_of_A.
Proof.
  assert (Hh : height fresh <> -1).
  { unfold fresh. rewrite (sound_height _ _ (sound_new 1600000000123)).
    discriminate. }
  split; [exact Hh|].
  destruct (sound_append_succeeds fresh 0 payload_of_A (block_of payload_of_A)
              1600000100500 (sound_new _) eq_refl) as [sealed Hadd].
  exists sealed. rewrite Hadd. split; [reflexivity|].
  destruct (new_body payload_of_A (block_of payload_of_A) eq_refl)
    as (text & Htext & _).
  exact (stored_payload_reads_back same_text parse_as_payload_of_A fresh payload_of_A
           (block_of payload_of_A) 1600000100500 _ sealed text
           Hh eq_refl Hadd Htext eq_refl).
Defined.






(** ** Validation of a block *)

Lemma set_hash_twice : forall h h' b, set_hash h (set_hash h' b) = set_hash h b.
Proof. reflexivity. Qed.

(** X12.  [validate] compares the stored hash with the digest of the block
    written with its hash cleared, so for a block that validates: any other
    value in the hash field makes the validation false; and a copy that
    keeps the hash but differs in another field still validates exactly
    when the digest of its text is the digest of the original text. *)
Theorem validate_detects_changes : forall b,
  validate b = Fulfilled true ->
  (forall h', h' <> hash b -> validate (set_hash h' b) = Fulfilled false)
  /\ (forall b', hash b' = hash b ->
        (validate b' = Fulfilled true <->
         SHA256 (JSON_stringify_Block (set_hash None b'))
         = SHA256 (JSON_stringify_Block (set_hash None b)))).
Proof.
  intros b Hvalid. rewrite validate_self_hash in Hvalid. injection Hvalid as Hok.
  unfold self_hash_ok in Hok. apply hash_equal_eq in Hok.
  split.
  - intros h' Hne. rewrite validate_self_hash. f_equal.
    unfold self_hash_ok. rewrite set_hash_twice.
    change (hash (set_hash h' b)) with h'.
    destruct (hash_equal h' (Some (SHA256 (JSON_stringify_Block (set_hash None b)))))
      eqn:E; [|reflexivity].
    apply hash_equal_eq in E. congruence.
  - intros b' Hsame. rewrite validate_self_hash. unfold self_hash_ok.
    rewrite Hsame, Hok. split.
    + intros H. apply Fulfilled_inj, hash_equal_eq, Some_inj in H. congruence.
    + intros ->. f_equal. apply hash_equal_refl.
Qed.

Lemma validate_detects_changes_witness :
  validate genesis_of_fresh = Fulfilled true
  /\ validate (set_hash None genesis_of_fresh) = Fulfilled false.
Proof.
  assert (H : validate genesis_of_fresh = Fulfilled true) by (vm_compute; reflexivity).
  split; [exact H|].
  apply (proj1 (validate_detects_changes genesis_of_fresh H)).
  vm_compute. discriminate.
Defined.

(** ** Validation of a chain *)

Lemma previous_app_more : forall arr more idx,
  (idx <= List.length arr)%nat -> previous (arr ++ more) idx = previous arr idx.
Proof.
  intros arr more [|i] H; simpl; [reflexivity|].
  apply nth_error_app1. lia.
Qed.

Lemma findings_from_app_more : forall arr more blocks idx,
  (idx + List.length blocks <= List.length arr)%nat ->
  findings_from (arr ++ more) idx blocks = findings_from arr idx blocks.
Proof.
  intros arr more blocks; induction blocks as [|b rest IH]; intros idx H; simpl in *.
  - reflexivity.
  - unfold findings, link_ok. rewrite previous_app_more by lia.
    fold (link_ok arr idx b). fold (findings arr idx b).
    rewrite IH by lia. reflexivity.
Qed.

(** X13.  Findings persist.  Whatever is put after the blocks of a chain,
    the list that [validateChain] gives for the longer chain begins with the
    list it gives for the chain.  So once a chain has a finding, every
    [_addBlock] on it or on any chain that extends it is rejected and
    leaves it as it is. *)
Theorem validateChain_findings_persist : forall self more n,
  exists errors rest,
    validateChain self = Fulfilled errors
    /\ validateChain {| chain := chain self ++ more; height := n |}
       = Fulfilled (errors ++ rest)
    /\ (errors <> [] ->
        forall block ms,
          exists r,
            _addBlock {| chain := chain self ++ more; height := n |} block ms
            = ({| chain := chain self ++ more; height := n |}, Rejected r)).
Proof.
  intros self more n.
  exists (findings_from (chain self) 0 (chain self)),
         (findings_from (chain self ++ more) (List.length (chain self)) more).
  split; [apply validateChain_findings|].
  assert (Hlong : validateChain {| chain := chain self ++ more; height := n |}
                  = Fulfilled (findings_from (chain self) 0 (chain self)
                               ++ findings_from (chain self ++ more)
                                    (List.length (chain self)) more)).
  { rewrite validateChain_findings. simpl.
    rewrite findings_from_app, findings_from_app_more by (simpl; lia).
    reflexivity. }
  split; [exact Hlong|].
  intros Hne block ms.
  destruct (addBlock_cases {| chain := chain self ++ more; height := n |} block ms)
    as [[r Hr]|(sealed & _ & Hclean & _)]; [now exists r|].
  rewrite Hlong in Hclean. injection Hclean as Hnil.
  apply app_eq_nil in Hnil as [Hnil _]. contradiction.
Qed.

Lemma new_Blockchain_block : forall ms,
  exists g digest,
    chain (new_Blockchain ms) = [g]
    /\ BlockClass.height g = 0
    /\ previousBlockHash g = None
    /\ hash g = Some digest
    /\ self_hash_ok g = true.
Proof.
  intros ms. destruct (new_Blockchain_genesis ms) as (block & sealed & Hnew & Hseal & ->).
  destruct (new_unsealed _ _ Hnew) as (Hnull & _ & Hprev).
  pose proof (seal_fields _ _ _ _ Hseal) as (Hh & _ & _ & _ & Hp & Hd).
  exists sealed. eexists. split; [reflexivity|]. split; [exact Hh|].
  split; [rewrite Hp by (simpl; lia); exact Hprev|]. split; [exact Hd|].
  eapply sealed_self_hash; eauto.
Qed.

(** X14.  The link of a block is checked only when its own height field
    is positive.  A chain whose blocks all pass their own validation and all
    carry a height of 0 or less is given the empty list by [validateChain],
    whether or not the blocks carry the hash of the block before them. *)
Theorem validateChain_trusts_the_height_field : forall self,
  (forall b, In b (chain self) ->
     validate b = Fulfilled true /\ BlockClass.height b <= 0) ->
  validateChain self = Fulfilled [].
Proof.
  intros self H. apply validateChain_nil. intros idx b Hb.
  destruct (H b (nth_error_In _ _ Hb)) as [Hv Hh].
  rewrite validate_self_hash in Hv. injection Hv as Hv. split; [exact Hv|].
  unfold link_ok.
  replace (BlockClass.height b >? 0) with false; [reflexivity|].
  symmetry. rewrite Z.gtb_ltb. apply Z.ltb_ge. lia.
Qed.

Lemma validateChain_trusts_the_height_field_witness :
  (forall b, In b (chain two_genesis) ->
     validate b = Fulfilled true /\ BlockClass.height b <= 0)
  /\ validateChain two_genesis = Fulfilled []
  /\ ~ linked (chain two_genesis).
Proof.
  destruct (new_Blockchain_block 1600000000123) as (g1 & d1 & E1 & Hh1 & _ & Hd1 & Hok1).
  destruct (new_Blockchain_block 1700000000456) as (g2 & d2 & E2 & Hh2 & Hp2 & _ & Hok2).
  assert (Hall : forall b, In b (chain two_genesis) ->
                   validate b = Fulfilled true /\ BlockClass.height b <= 0).
  { unfold two_genesis. cbn [chain]. rewrite E1, E2.
    intros b [<-|[<-|[]]]; rewrite validate_self_hash.
    - rewrite Hok1, Hh1. split; [reflexivity | lia].
    - rewrite Hok2, Hh2. split; [reflexivity | lia]. }
  split; [exact Hall|].
  split; [exact (validateChain_trusts_the_height_field two_genesis Hall)|].
  intros Hlinked. unfold two_genesis in Hlinked. cbn [chain] in Hlinked.
  rewrite E1, E2 in Hlinked.
  specialize (Hlinked 0%nat g2 g1 eq_refl eq_refl). congruence.
Defined.

(** ** Lookups on any chain *)

Lemma find_first : forall (A : Type) (f : A -> bool) (l : list A) (x : A),
  find f l = Some x ->
  exists i, nth_error l i = Some x /\ f x = true
            /\ forall j y, (j < i)%nat -> nth_error l j = Some y -> f y = false.
Proof.
  intros A f l x; induction l as [|a l IH]; simpl; [discriminate|].
  destruct (f a) eqn:Ha.
  - intro H; injection H as <-. exists 0%nat. repeat split; [assumption|].
    intros j y Hj; lia.
  - intro H. destruct (IH H) as (i & Hi & Hf & Hbefore).
    exists (S i). repeat split; [assumption..|].
    intros [|j] y Hj Hy; simpl in Hy.
    + injection Hy as <-. exact Ha.
    + apply (Hbefore j); [lia | assumption].
Qed.

Lemma find_none_iff : forall (A : Type) (f : A -> bool) (l : list A),
  find f l = None <-> forall y, In y l -> f y = false.
Proof.
  intros A f l. split; [apply find_none | apply find_absent].
Qed.

(** X15.  The two lookups on any chain, tampered or not.  When the
    promise of [getBlockByHeight] holds a block, it is the first block of
    the chain whose height is the one asked for; it holds no block exactly
    when no block has that height.  The same goes for [getBlockByHash] and
    the hash.  Neither promise is ever rejected. *)
Theorem lookups_return_the_first_match : forall self k h,
  (forall b, getBlockByHeight self k = Fulfilled (Some b) ->
     exists i, nth_error (chain self) i = Some b
               /\ BlockClass.height b = k
               /\ forall j b', (j < i)%nat -> nth_error (chain self) j = Some b' ->
                               BlockClass.height b' <> k)
  /\ (getBlockByHeight self k = Fulfilled None <->
      forall b, In b (chain self) -> BlockClass.height b <> k)
  /\ (forall b, getBlockByHash self h = Fulfilled (Some b) ->
        exists i, nth_error (chain self) i = Some b
                  /\ hash b = Some h
                  /\ forall j b', (j < i)%nat -> nth_error (chain self) j = Some b' ->
                                  hash b' <> Some h)
  /\ (getBlockByHash self h = Fulfilled None <->
      forall b, In b (chain self) -> hash b <> Some h)
  /\ (exists found, getBlockByHeight self k = Fulfilled found)
  /\ (exists found, getBlockByHash self h = Fulfilled found).
Proof.
  intros self k h. rewrite getBlockByHeight_find, getBlockByHash_find.
  split; [|split; [|split; [|split; [|split]]]].
  - intros b H. injection H as H.
    apply find_first in H as (i & Hi & Hf & Hbefore).
    exists i. split; [assumption|]. split; [now apply Z.eqb_eq|].
    intros j b' Hj Hb'. apply Z.eqb_neq. eapply Hbefore; eauto.
  - split.
    + intros H. injection H as H. intros b Hb.
      apply Z.eqb_neq. exact (proj1 (find_none_iff _ _ _) H b Hb).
    + intros H. f_equal. apply find_none_iff. intros y Hy.
      apply Z.eqb_neq. now apply H.
  - intros b H. injection H as H.
    apply find_first in H as (i & Hi & Hf & Hbefore).
    exists i. split; [assumption|]. split; [now apply hash_equal_eq|].
    intros j b' Hj Hb' Heq. apply hash_equal_eq in Heq.
    rewrite (Hbefore j b' Hj Hb') in Heq. discriminate.
  - split.
    + intros H. injection H as H. intros b Hb Heq. apply hash_equal_eq in Heq.
      rewrite (proj1 (find_none_iff _ _ _) H b Hb) in Heq. discriminate.
    + intros H. f_equal. apply find_none_iff. intros y Hy.
      destruct (hash_equal (hash y) (Some h)) eqn:E; [|reflexivity].
      apply hash_equal_eq in E. now apply H in E.
  - eexists. reflexivity.
  - eexists. reflexivity.
Qed.

(** X16.  In a chain of a run with [n] appends the heights are the
    positions: for every [k] from 0 to [n], [getBlockByHeight(k)] is
    resolved with the block at position [k] of the chain, and for every
    other integer it is resolved with no block. *)
Theorem getBlockByHeight_is_the_position : forall self n k,
  appended self n ->
  (0 <= k <= Z.of_nat n ->
     exists b, nth_error (chain self) (Z.to_nat k) = Some b
               /\ getBlockByHeight self k = Fulfilled (Some b))
  /\ (k < 0 \/ Z.of_nat n < k -> getBlockByHeight self k = Fulfilled None).
Proof.
  intros self n k Happ. pose proof (appended_sound _ _ Happ) as Hs.
  pose proof Hs as [_ Hl _ Hi]. rewrite getBlockByHeight_find. split.
  - intros Hk.
    destruct (nth_error (chain self) (Z.to_nat k)) as [b|] eqn:Hb;
      [|apply nth_error_None in Hb; lia].
    exists b. split; [reflexivity|]. f_equal.
    pose proof (Hi _ _ Hb) as Hhb. rewrite Z2Nat.id in Hhb by lia.
    apply find_the_one; [eapply nth_error_In; eauto | now apply Z.eqb_eq |].
    intros y Hy Hf. apply Z.eqb_eq in Hf.
    eapply sound_heights_distinct; eauto; [eapply nth_error_In; eauto | congruence].
  - intros Hk. f_equal. apply find_absent. intros y Hy.
    apply In_nth_error in Hy as [i Hy]. apply Z.eqb_neq. rewrite (Hi _ _ Hy).
    assert (i < S n)%nat by (rewrite <- Hl; apply nth_error_Some; congruence).
    lia.
Qed.

Lemma getBlockByHeight_is_the_position_witness :
  appended one_star 1
  /\ (exists b, nth_error (chain one_star) 1 = Some b
                /\ getBlockByHeight one_star 1 = Fulfilled (Some b))
  /\ getBlockByHeight one_star 2 = Fulfilled None.
Proof.
  split; [exact one_star_appended|].
  destruct (getBlockByHeight_is_the_position one_star 1 1 one_star_appended)
    as [Hin _].
  destruct (getBlockByHeight_is_the_position one_star 1 2 one_star_appended)
    as [_ Hout].
  split; [apply Hin; lia | apply Hout; lia].
Defined.

(** ** Tampering *)

Lemma replace_at_same : forall i b arr,
  (i < List.length arr)%nat -> nth_error (replace_at i b arr) i = Some b.
Proof.
  intros i b arr; revert i; induction arr as [|x arr IH]; intros [|i] H; simpl in *;
    try lia; [reflexivity | apply IH; lia].
Qed.

Lemma replace_at_other : forall i j b arr,
  i <> j -> nth_error (replace_at i b arr) j = nth_error arr j.
Proof.
  intros i j b arr; revert i j; induction arr as [|x arr IH]; intros [|i] [|j] H;
    simpl; try reflexivity; try congruence.
  apply IH. congruence.
Qed.

Lemma findings_from_holds : forall arr blocks idx k b r,
  nth_error blocks k = Some b ->
  In r (findings arr (idx + k) b) ->
  In r (findings_from arr idx blocks).
Proof.
  intros arr blocks; induction blocks as [|x rest IH]; intros idx [|k] b r Hb Hr;
    simpl in Hb; try discriminate; simpl; apply in_or_app.
  - injection Hb as ->. rewrite Nat.add_0_r in Hr. now left.
  - right. apply (IH (S idx) k b); [assumption|].
    now rewrite Nat.add_succ_comm.
Qed.

Lemma replaced_block_findings : forall self i b' r,
  (i < List.length (chain self))%nat ->
  In r (findings (replace_at i b' (chain self)) i b') ->
  exists errors,
    validateChain {| chain := replace_at i b' (chain self); height := height self |}
    = Fulfilled errors
    /\ In r errors.
Proof.
  intros self i b' r Hi Hr. eexists. split; [apply validateChain_findings|].
  simpl. apply (findings_from_holds _ _ 0 i b'); [now apply replace_at_same | exact Hr].
Qed.

(** X17.  Tampering with a block of a chain of a run is reported by
    [validateChain].  Another value written in the hash field of a block
    gives a record of a failed validation.  Another value written in the
    [previousBlockHash] of a block after the first gives a record of a hash
    mismatch.  Another body gives a record of a failed validation unless the
    new text of the block has the digest of the old one. *)
Theorem tampering_is_reported : forall self n i b,
  appended self n ->
  nth_error (chain self) i = Some b ->
  (forall h', h' <> hash b ->
     exists errors,
       validateChain {| chain := replace_at i (set_hash h' b) (chain self);
                        height := height self |} = Fulfilled errors
       /\ In validation_failed errors)
  /\ (forall p', (0 < i)%nat -> p' <> previousBlockHash b ->
        exists errors,
          validateChain {| chain := replace_at i (set_previousBlockHash p' b) (chain self);
                           height := height self |} = Fulfilled errors
          /\ In hash_mismatch errors)
  /\ (forall text,
        SHA256 (JSON_stringify_Block (set_hash None (set_body text b)))
        <> SHA256 (JSON_stringify_Block (set_hash None b)) ->
        exists errors,
          validateChain {| chain := replace_at i (set_body text b) (chain self);
                           height := height self |} = Fulfilled errors
          /\ In validation_failed errors).
Proof.
  intros self n i b Happ Hb. pose proof (appended_sound _ _ Happ) as Hs.
  pose proof Hs as [_ _ Hc Hi].
  assert (Hlen : (i < List.length (chain self))%nat)
    by (apply nth_error_Some; congruence).
  pose proof (consistent_hash _ _ Hc (nth_error_In _ _ Hb)) as Hdigest.
  split; [|split].
  - intros h' Hne. apply replaced_block_findings; [assumption|].
    unfold findings. apply in_or_app. left.
    replace (self_hash_ok (set_hash h' b)) with false; [now left|].
    symmetry. unfold self_hash_ok. rewrite set_hash_twice.
    change (hash (set_hash h' b)) with h'.
    destruct (hash_equal h' (Some (SHA256 (JSON_stringify_Block (set_hash None b)))))
      eqn:E; [|reflexivity].
    apply hash_equal_eq in E. congruence.
  - intros p' Hpos Hne. apply replaced_block_findings; [assumption|].
    unfold findings. apply in_or_app. right.
    replace (link_ok (replace_at i (set_previousBlockHash p' b) (chain self)) i
                     (set_previousBlockHash p' b)) with false; [now left|].
    symmetry. unfold link_ok.
    change (BlockClass.height (set_previousBlockHash p' b)) with (BlockClass.height b).
    change (previousBlockHash (set_previousBlockHash p' b)) with p'.
    rewrite (Hi _ _ Hb).
    replace (Z.of_nat i >? 0) with true by (symmetry; apply Z.gtb_lt; lia).
    destruct i as [|j]; [lia|]. unfold previous.
    rewrite replace_at_other by lia.
    destruct (nth_error (chain self) j) as [prev|] eqn:Hprev;
      [|apply nth_error_None in Hprev; lia].
    pose proof (sound_linked _ _ Hs j b prev Hb Hprev) as Hlink.
    destruct (hash_equal p' (hash prev)) eqn:E; [|reflexivity].
    apply hash_equal_eq in E. congruence.
  - intros text Hne. apply replaced_block_findings; [assumption|].
    unfold findings. apply in_or_app. left.
    replace (self_hash_ok (set_body text b)) with false; [now left|].
    symmetry. unfold self_hash_ok.
    change (hash (set_body text b)) with (hash b). rewrite Hdigest.
    destruct (hash_equal _ _) eqn:E; [|reflexivity].
    apply hash_equal_eq, Some_inj in E. congruence.
Qed.

Lemma tampering_is_reported_witness :
  appended fresh 0
  /\ nth_error (chain fresh) 0 = Some genesis_of_fresh
  /\ exists errors,
       validateChain {| chain := replace_at 0 (set_hash None genesis_of_fresh)
                                            (chain fresh);
                        height := height fresh |} = Fulfilled errors
       /\ In validation_failed errors.
Proof.
  assert (Hg : nth_error (chain fresh) 0 = Some genesis_of_fresh)
    by (vm_compute; reflexivity).
  split; [apply appended_new|]. split; [exact Hg|].
  apply (proj1 (tampering_is_reported fresh 0 0%nat genesis_of_fresh
                  (appended_new _) Hg)).
  vm_compute. discriminate.
Defined.

(** ** The lookup by owner *)

(** X18.  [getStarsByWalletAddress] finds nothing.  On every chain and for
    every address its promise is fulfilled with the empty array: it never
    holds a star, and it is never rejected, not even when the body of a
    block cannot be decoded. *)
Theorem getStarsByWalletAddress_finds_nothing :
  forall hex2ascii JSON_parse self address,
  getStarsByWalletAddress hex2ascii JSON_parse self address = Fulfilled []
  /\ (forall r, getStarsByWalletAddress hex2ascii JSON_parse self address
                <> Rejected r)
  /\ (forall star stars,
        getStarsByWalletAddress hex2ascii JSON_parse self address
        <> Fulfilled (star :: stars)).
Proof.
  intros hex2ascii JSON_parse self address.
  rewrite getStarsByWalletAddress_empty. repeat split; intros; discriminate.
Qed.
